(** * keel::Optional<T> (Optional.h): storage and lifetime

    A shallow embedding of [keel::Optional<T>].  A container is an object
    at an address; it owns raw bytes that may or may not host a live [T]
    and a flag [m_HasValue].  Member functions are computations over a
    store of such objects, so that [a = a] and [a = b] are told apart by
    address, as the source does.  An exception escaping one of [T]'s
    constructors ends the computation and keeps the store it leaves
    behind. *)

From stdpp Require Import base option list gmap.

Set Default Proof Using "Type".

(** ** The payload type

    [T] is the template parameter.  The header uses its copy constructor,
    its move constructor, the constructor selected by [Emplace]'s
    arguments, its destructor, [operator==] and [operator!=].  A
    constructor either yields the new object or throws ([None]).  The move
    constructor also leaves a value behind in its source.  The destructor
    returns ([Reset] and [~Optional] are [noexcept]).  [detail::Move] and
    [detail::Forward] are casts and have no counterpart here. *)

Class PayloadOps (T Args : Type) := {
  (** [T(const T&)] *)
  copy_ctor : T → option T;
  (** [T(T&&)]: the object built (or a throw) and what remains in the source *)
  move_ctor : T → option T * T;
  (** [T(Args...)] *)
  args_ctor : Args → option T;
  (** [T::operator==] *)
  op_eq : T → T → bool;
  (** [T::operator!=] *)
  op_ne : T → T → bool
}.

(** Addresses of objects. *)
Abbreviation addr := N.

(** A reference to a [T]: the bytes of the container at [a]
    ([a.m_Value.Get()]) or a [T] object of its own at [p]. *)
Inductive TRef :=
| Payload_of (a : addr)
| Object_at (p : addr).

Global Instance TRef_eq_dec : EqDecision TRef.
Proof. solve_decision. Defined.

(** What happens to payload objects, in order. *)
Inductive event :=
| Constructed (a : addr)   (* placement new into the bytes of [a] *)
| Destroyed (a : addr)     (* [~T()] on the bytes of [a] *)
| Accessed (a : addr).     (* the bytes of [a] read as a [T] *)

Global Instance event_eq_dec : EqDecision event.
Proof. solve_decision. Defined.

Section optional.
Context {T Args : Type} {ops : PayloadOps T Args}.

(** Whether the build defines [NDEBUG], which compiles [assert] out. *)
Variable NDEBUG : bool.

(** [struct Optional]: [m_Value] is [TypeCompatibleBytes<T>], modelled by
    what lives in the bytes: [Some x] for a live [T], [None] for bytes
    that host no object. *)
Record Optional := mkOptional {
  m_Value : option T;
  m_HasValue : bool
}.

Record state := mkState {
  opts : gmap N Optional;   (* the containers *)
  objs : gmap N T;          (* [T] objects outside any container *)
  log : list event
}.

(** How a call ends. *)
Inductive outcome (A : Type) :=
| Ret (a : A) (s : state)     (* returns [a] *)
| Throw (s : state)           (* an exception of [T] propagates *)
| Abort                       (* [KEEL_ASSERT] fails *)
| Undefined.                  (* undefined behaviour *)
Global Arguments Ret {A} a s.
Global Arguments Throw {A} s.
Global Arguments Abort {A}.
Global Arguments Undefined {A}.

Definition M (A : Type) : Type := state → outcome A.

Global Instance M_ret : MRet M := λ A a s, Ret a s.
Global Instance M_bind : MBind M := λ A B k m s,
  match m s with
  | Ret a s' => k a s'
  | Throw s' => Throw s'
  | Abort => Abort
  | Undefined => Undefined
  end.

Definition throw {A} : M A := λ s, Throw s.
Definition undefined {A} : M A := λ _, Undefined.
Definition abort {A} : M A := λ _, Abort.

(** The store a call leaves behind, whether it returns or throws. *)
Definition final_state {A} (o : outcome A) : option state :=
  match o with
  | Ret _ s | Throw s => Some s
  | Abort | Undefined => None
  end.

(** The value a call returns. *)
Definition returned {A} (o : outcome A) : option A :=
  match o with
  | Ret a _ => Some a
  | _ => None
  end.

(** *** Access to the store *)

Definition get_opt (a : addr) : M Optional := λ s,
  match opts s !! a with
  | Some o => Ret o s
  | None => Undefined
  end.

Definition put_opt (a : addr) (o : Optional) : M unit := λ s,
  Ret tt (mkState (<[a := o]> (opts s)) (objs s) (log s)).

Definition emit (e : event) : M unit := λ s,
  Ret tt (mkState (opts s) (objs s) (log s ++ [e])).

(** Read and write of the member [m_HasValue]. *)
Definition load_flag (this : addr) : M bool :=
  o ← get_opt this; mret (m_HasValue o).

Definition store_flag (this : addr) (b : bool) : M unit :=
  o ← get_opt this; put_opt this (mkOptional (m_Value o) b).

(** [m_Value.Get()] used as a [T]: there must be a live object. *)
Definition read_bytes (this : addr) : M T :=
  o ← get_opt this;
  match m_Value o with
  | Some x => emit (Accessed this);; mret x
  | None => undefined
  end.

(** The bytes of [this] now hold [x] (no event: used for what a move
    leaves in its source). *)
Definition write_bytes (this : addr) (x : T) : M unit :=
  o ← get_opt this; put_opt this (mkOptional (Some x) (m_HasValue o)).

(** [new(&m_Value.Get()) T(...)], given what [T]'s constructor did.  The
    bytes are taken over as they are: an object they host is not
    destroyed first. *)
Definition placement_new (this : addr) (r : option T) : M unit :=
  match r with
  | Some y =>
      o ← get_opt this;
      put_opt this (mkOptional (Some y) (m_HasValue o));;
      emit (Constructed this)
  | None => throw
  end.

(** [m_Value.Get().~T()] *)
Definition destroy (this : addr) : M unit :=
  o ← get_opt this;
  match m_Value o with
  | Some _ =>
      put_opt this (mkOptional None (m_HasValue o));;
      emit (Destroyed this)
  | None => undefined
  end.

(** Reading and writing through a [T] reference. *)
Definition read_ref (r : TRef) : M T :=
  match r with
  | Payload_of a => read_bytes a
  | Object_at p => λ s,
      match objs s !! p with
      | Some x => Ret x s
      | None => Undefined
      end
  end.

Definition write_ref (r : TRef) (x : T) : M unit :=
  match r with
  | Payload_of a => write_bytes a x
  | Object_at p => λ s,
      match objs s !! p with
      | Some _ => Ret tt (mkState (opts s) (<[p := x]> (objs s)) (log s))
      | None => Undefined
      end
  end.

(** The live [T] a reference designates, if any. *)
Definition target (r : TRef) (s : state) : option T :=
  match r with
  | Payload_of a => o ← opts s !! a; m_Value o
  | Object_at p => objs s !! p
  end.

(** [new(&m_Value.Get()) T(Value)] *)
Definition construct_copy (this : addr) (Value : TRef) : M unit :=
  x ← read_ref Value;
  placement_new this (copy_ctor x).

(** [new(&m_Value.Get()) T(keel::detail::Move(Value))] *)
Definition construct_move (this : addr) (Value : TRef) : M unit :=
  x ← read_ref Value;
  write_ref Value (move_ctor x).2;;
  placement_new this (move_ctor x).1.

(** ** Member functions of [Optional] *)

(** [void Reset() noexcept] *)
Definition Reset (this : addr) : M unit :=
  b ← load_flag this;
  if b : bool then (destroy this;; store_flag this false)
  else mret tt.

(** [Optional(const T& Value)]; [this] is the storage being initialised. *)
Definition Optional_from_lvalue (this : addr) (Value : TRef) : M unit :=
  construct_copy this Value;;
  store_flag this true.

(** [Optional(T&& Value)] *)
Definition Optional_from_rvalue (this : addr) (Value : TRef) : M unit :=
  construct_move this Value;;
  store_flag this true.

(** [Optional() noexcept] *)
Definition Optional_default (this : addr) : M unit :=
  store_flag this false.

(** [Optional(const Optional& Value)] *)
Definition Optional_copy (this Value : addr) : M unit :=
  b ← load_flag Value;
  store_flag this b;;
  c ← load_flag Value;
  if c : bool then construct_copy this (Payload_of Value)
  else mret tt.

(** [Optional(Optional&& Value)] *)
Definition Optional_move (this Value : addr) : M unit :=
  b ← load_flag Value;
  store_flag this b;;
  c ← load_flag Value;
  if c : bool then construct_move this (Payload_of Value)
  else mret tt.

(** [Optional& operator=(const Optional& Value)] *)
Definition operator_assign_copy (this Value : addr) : M addr :=
  (if decide (Value ≠ this) then
     Reset this;;
     b ← load_flag Value;
     store_flag this b;;
     c ← load_flag Value;
     if c : bool then construct_copy this (Payload_of Value)
     else mret tt
   else mret tt);;
  mret this.

(** [Optional& operator=(Optional&& Value)] *)
Definition operator_assign_move (this Value : addr) : M addr :=
  (if decide (Value ≠ this) then
     Reset this;;
     b ← load_flag Value;
     store_flag this b;;
     c ← load_flag Value;
     if c : bool then construct_move this (Payload_of Value)
     else mret tt
   else mret tt);;
  mret this.

(** [Optional& operator=(const T& Value)] *)
Definition operator_assign_lvalue (this : addr) (Value : TRef) : M addr :=
  (if decide (Value ≠ Payload_of this) then
     Reset this;;
     construct_copy this Value;;
     store_flag this true
   else mret tt);;
  mret this.

(** [Optional& operator=(T&& Value)] *)
Definition operator_assign_rvalue (this : addr) (Value : TRef) : M addr :=
  (if decide (Value ≠ Payload_of this) then
     Reset this;;
     construct_move this Value;;
     store_flag this true
   else mret tt);;
  mret this.

(** [~Optional() noexcept] *)
Definition Optional_dtor (this : addr) : M unit :=
  Reset this.

(** [void Emplace(ArgsT&&... Args)]; [args] are the values of the forwarded
    arguments, objects of the caller. *)
Definition Emplace (this : addr) (args : Args) : M unit :=
  Reset this;;
  placement_new this (args_ctor args);;
  store_flag this true.

(** [bool HasValue() const] and [explicit operator bool() const] *)
Definition HasValue (this : addr) : M bool :=
  load_flag this.

Definition operator_bool (this : addr) : M bool :=
  load_flag this.

(** [operator T*()]: the null pointer is [None]. *)
Definition operator_ptr (this : addr) : M (option TRef) :=
  b ← HasValue this;
  mret (if b : bool then Some (Payload_of this) else None).

(** [KEEL_ASSERT(expr, message)], that is [assert(expr && message)]. *)
Definition KEEL_ASSERT (expr : M bool) : M unit :=
  if NDEBUG then mret tt
  else b ← expr; if b : bool then mret tt else abort.

(** [T& GetValue()] and its const overload *)
Definition GetValue (this : addr) : M TRef :=
  KEEL_ASSERT (HasValue this);;
  mret (Payload_of this).

(** [operator*] and [operator->] *)
Definition operator_deref (this : addr) : M TRef :=
  GetValue this.

Definition operator_arrow (this : addr) : M TRef :=
  GetValue this.

(** [const T& Get(const T& DefaultValue) const] *)
Definition Get (this : addr) (DefaultValue : TRef) : M TRef :=
  b ← HasValue this;
  mret (if b : bool then Payload_of this else DefaultValue).

(** [operator==] and [operator!=] have no model here.  The friend
    declarations in the class (lines 172 and 173) declare functions that are
    not templates and that the header never defines; a use [a == b] or
    [a != b] selects them over the templates of lines 197 to 223 and does
    not link.  Those templates are not friends of [Optional] and read its
    private members [m_HasValue] and [m_Value], so they cannot be
    instantiated either: no run of a program reaches their bodies. *)

(** The caller's use of a returned reference as a value. *)
Definition value_of (m : M TRef) : M T :=
  r ← m; read_ref r.

(** ** The presence invariant (I1 and I2 of the data model) *)

(** Is there a live [T] in the bytes? *)
Definition live (o : Optional) : bool :=
  match m_Value o with Some _ => true | None => false end.

(** The flag says so exactly when there is one. *)
Definition invariant (o : Optional) : Prop :=
  m_HasValue o = live o.

Global Instance invariant_dec o : Decision (invariant o).
Proof. unfold invariant. apply _. Defined.

(** The two shapes a container that satisfies the invariant has. *)
Definition empty_optional : Optional := mkOptional None false.
Definition present_optional (x : T) : Optional := mkOptional (Some x) true.

End optional.

Global Arguments Optional : clear implicits.
Global Arguments state : clear implicits.
Global Arguments outcome : clear implicits.
Global Arguments M : clear implicits.

(** ** Payload types to run the model on *)

(** [int]: every constructor returns, a move is a copy. *)
Definition int_ops : PayloadOps Z Z := {|
  copy_ctor v := Some v;
  move_ctor v := (Some v, v);
  args_ctor a := Some a;
  op_eq x y := Z.eqb x y;
  op_ne x y := negb (Z.eqb x y)
|}.

(** A vector of [int], built by [Emplace] from an element count and a fill
    value: a move takes the elements and leaves the source with none. *)
Definition vec_ops : PayloadOps (list Z) (nat * Z) := {|
  copy_ctor v := Some v;
  move_ctor v := (Some v, []);
  args_ctor a := Some (replicate a.1 a.2);
  op_eq x y := bool_decide (x = y);
  op_ne x y := negb (bool_decide (x = y))
|}.

(** A type whose constructors throw on a negative value:
    [struct Fragile { int v; Fragile(const Fragile& o) : v(o.v)
    { if (v < 0) throw std::runtime_error("negative"); } ... };] *)
Definition fragile_ops : PayloadOps Z Z := {|
  copy_ctor v := if (v <? 0)%Z then None else Some v;
  move_ctor v := (if (v <? 0)%Z then None else Some v, v);
  args_ctor a := if (a <? 0)%Z then None else Some a;
  op_eq x y := Z.eqb x y;
  op_ne x y := negb (Z.eqb x y)
|}.

(** Stores to run on: a present container at 1, an empty one at 2, a
    present one at 3, and a [T] object at 10. *)
Definition int_store : state Z :=
  mkState {[ 1%N := present_optional 7%Z; 2%N := empty_optional;
             3%N := present_optional 7%Z ]}
          {[ 10%N := 42%Z ]} [].

Definition vec_store : state (list Z) :=
  mkState {[ 1%N := present_optional [1; 2; 3]%Z; 2%N := empty_optional;
             3%N := present_optional [4]%Z ]}
          {[ 10%N := [5; 6]%Z ]} [].

(** [Fragile]: the payload at 2 was made negative in place, through
    [operator->]. *)
Definition fragile_store : state Z :=
  mkState {[ 1%N := present_optional 7%Z; 2%N := present_optional (-1)%Z ]}
          {[ 10%N := (-1)%Z ]} [].

(** Storage for two containers not yet constructed, and a [T] object. *)
Definition raw_store : state Z :=
  mkState {[ 1%N := mkOptional None true; 2%N := mkOptional None true ]}
          {[ 10%N := 42%Z ]} [].

(** The scenarios of the specification, as calls in sequence.  An empty
    container of [int]: query, [Get(42)], [Emplace(7)], query again. *)
Definition scenario_emplace : M Z (bool * Z * bool * Z * Z) :=
  Optional_default 1%N;;
  h0 ← HasValue 1%N;
  g0 ← value_of (Get 1%N (Object_at 10%N));
  Emplace (ops:=int_ops) 1%N 7%Z;;
  h1 ← HasValue 1%N;
  v1 ← value_of (GetValue false 1%N);
  g1 ← value_of (Get 1%N (Object_at 10%N));
  mret (h0, g0, h1, v1, g1).

(** A container built from a value, copied into a second one, then
    reset: the copy keeps the payload. *)
Definition scenario_copy_then_reset : M Z (bool * bool * Z) :=
  Optional_from_lvalue (ops:=int_ops) 1%N (Object_at 10%N);;
  Optional_copy (ops:=int_ops) 2%N 1%N;;
  Reset 1%N;;
  ha ← HasValue 1%N;
  hb ← HasValue 2%N;
  vb ← value_of (GetValue false 2%N);
  mret (ha, hb, vb).

(** The claim C1 at a destination after an assignment threw: the
    destination is empty. *)
Definition left_empty {T} (this : addr) (s : state T) : Prop :=
  opts s !! this = Some empty_optional.

(** ** Stores whose containers all satisfy the invariant *)

Definition store_ok {T} (s : state T) : Prop :=
  map_Forall (λ _ o, invariant o) (opts s).

(** What [Reset] adds to the log on a container [o] at [this]. *)
Definition reset_events {T} (this : addr) (o : Optional T) : list event :=
  if m_HasValue o then [Destroyed this] else [].

(** What reading through a reference adds to the log. *)
Definition read_events (r : TRef) : list event :=
  match r with
  | Payload_of a => [Accessed a]
  | Object_at _ => []
  end.

(** What an event adds to the number of live payloads in the bytes of [a]. *)
Definition event_delta (a : addr) (e : event) : Z :=
  match e with
  | Constructed b => if decide (b = a) then 1 else 0
  | Destroyed b => if decide (b = a) then -1 else 0
  | Accessed _ => 0
  end.

(** Constructions minus destructions in the bytes of [a], over a list of
    events. *)
Definition balance (a : addr) (l : list event) : Z :=
  foldr (λ e n, event_delta a e + n)%Z 0%Z l.

(** One for bytes that host an object, zero otherwise. *)
Definition live_count {T} (o : Optional T) : Z :=
  if live o then 1 else 0.

(** ** Client programs: member functions called in sequence *)

(** A call of a mutating member function on an existing container. *)
Inductive call (Args : Type) :=
| Call_Reset (this : addr)
| Call_Emplace (this : addr) (args : Args)
| Call_assign_copy (this Value : addr)
| Call_assign_move (this Value : addr)
| Call_assign_lvalue (this : addr) (Value : TRef)
| Call_assign_rvalue (this : addr) (Value : TRef).
Global Arguments Call_Reset {Args} this.
Global Arguments Call_Emplace {Args} this args.
Global Arguments Call_assign_copy {Args} this Value.
Global Arguments Call_assign_move {Args} this Value.
Global Arguments Call_assign_lvalue {Args} this Value.
Global Arguments Call_assign_rvalue {Args} this Value.

Definition run_call {T Args} {ops : PayloadOps T Args}
    (c : call Args) : M T unit :=
  match c with
  | Call_Reset this => Reset this
  | Call_Emplace this args => Emplace this args
  | Call_assign_copy this Value => operator_assign_copy this Value;; mret tt
  | Call_assign_move this Value => operator_assign_move this Value;; mret tt
  | Call_assign_lvalue this Value =>
      operator_assign_lvalue this Value;; mret tt
  | Call_assign_rvalue this Value =>
      operator_assign_rvalue this Value;; mret tt
  end.

Fixpoint run_calls {T Args} {ops : PayloadOps T Args}
    (cs : list (call Args)) : M T unit :=
  match cs with
  | [] => mret tt
  | c :: cs => run_call c;; run_calls cs
  end.

(** Calls that take their new payload from a [T], not from a container. *)
Definition from_value {Args} (c : call Args) : bool :=
  match c with
  | Call_assign_copy _ _ | Call_assign_move _ _ => false
  | _ => true
  end.

(** The objects a call may write: its own payload, and the source of a
    move. *)
Definition written {Args} (c : call Args) : list TRef :=
  match c with
  | Call_Reset this | Call_Emplace this _
  | Call_assign_copy this _ | Call_assign_lvalue this _ => [Payload_of this]
  | Call_assign_move this Value => [Payload_of this; Payload_of Value]
  | Call_assign_rvalue this Value => [Payload_of this; Value]
  end.

(** What a run from [s] to [s'] that writes at most [W] leaves alone, and
    how its constructions and destructions add up: containers and objects
    outside [W] are as they were, no container appears or disappears, the
    log only grows, and for every container the constructions minus the
    destructions logged are the change in its number of live payloads. *)
Definition effects_within {T} (W : list TRef) (s s' : state T) : Prop :=
  (∀ a, Payload_of a ∉ W → opts s' !! a = opts s !! a) ∧
  (∀ p, Object_at p ∉ W → objs s' !! p = objs s !! p) ∧
  (∀ a, is_Some (opts s' !! a) ↔ is_Some (opts s !! a)) ∧
  ∃ evs, log s' = log s ++ evs ∧
    ∀ a o o', opts s !! a = Some o → opts s' !! a = Some o' →
      balance a evs = (live_count o' - live_count o)%Z.

(** Everything a program may write. *)
Definition program_writes {Args} (cs : list (call Args)) : list TRef :=
  cs ≫= written.

(** Storage for a container of [Fragile] not yet constructed, and two
    [Fragile] objects, the first of which cannot be copied. *)
Definition fragile_raw_store : state Z :=
  mkState {[ 1%N := mkOptional None true ]}
          {[ 10%N := (-1)%Z; 11%N := 8%Z ]} [].

(** Vectors: the containers of [vec_store] and storage at 4 for one more. *)
Definition vec_raw_store : state (list Z) :=
  mkState (<[ 4%N := mkOptional None true ]> (opts vec_store))
          (objs vec_store) [].

(** Programs to run. *)
Definition int_program : list (call Z) :=
  [Call_Emplace 2%N 5%Z; Call_assign_copy 3%N 2%N; Call_assign_move 1%N 3%N;
   Call_Reset 2%N].


(** A client that calls member functions in sequence and catches what
    they throw: the store after the last call, or [None] when a call
    asserts or is undefined. *)
Fixpoint run_catching {T Args} {ops : PayloadOps T Args}
    (cs : list (call Args)) (s : state T) : option (state T) :=
  match cs with
  | [] => Some s
  | c :: cs => s' ← final_state (run_call c s); run_catching cs s'
  end.

(** From [s] to [s'] nothing outside [W] has changed, and no container has
    appeared or disappeared. *)
Definition frame_within {T} (W : list TRef) (s s' : state T) : Prop :=
  (∀ a, Payload_of a ∉ W → opts s' !! a = opts s !! a) ∧
  (∀ p, Object_at p ∉ W → objs s' !! p = objs s !! p) ∧
  (∀ a, is_Some (opts s' !! a) ↔ is_Some (opts s !! a)).

(** A computation that, when it returns or throws, has written at most
    [W]. *)
Definition touches {T A} (W : list TRef) (m : M T A) : Prop :=
  ∀ s s', final_state (m s) = Some s' → frame_within W s s'.

(** The flag set over bytes that host no object. *)
Definition flagged_without_payload {T} : Optional T := mkOptional None true.

(** No container holds a live payload under a clear flag. *)
Definition no_unflagged_payload {T} (s : state T) : Prop :=
  map_Forall (λ _ o, live o = true → m_HasValue o = true) (opts s).

(** [Fragile]: the container at 1 has its flag set over bytes without an
    object, as a copy assignment that threw leaves it; the containers at 2
    and 3 are present. *)
Definition fragile_flagged_store : state Z :=
  mkState {[ 1%N := flagged_without_payload; 2%N := present_optional (-1)%Z;
             3%N := present_optional 4%Z ]}
          {[ 10%N := (-1)%Z ]} [].

(** On [fragile_flagged_store]: [Emplace(-1)] on 3 throws, the assignment
    of the object at 10 to 2 throws, [Emplace(6)] on 3 returns. *)
Definition fragile_value_program : list (call Z) :=
  [Call_Emplace 3%N (-1)%Z; Call_assign_lvalue 2%N (Object_at 10%N);
   Call_Emplace 3%N 6%Z].

(** On [fragile_store]: [Emplace(3)] on 1 returns, the copy assignment of
    2 to 1 throws, [Reset] on 2 returns. *)
Definition fragile_copy_program : list (call Z) :=
  [Call_Emplace 1%N 3%Z; Call_assign_copy 1%N 2%N; Call_Reset 2%N].


Ltac exec :=
  repeat first
    [ progress cbn [opts objs log m_Value m_HasValue final_state returned
                    fst snd negb eqb empty_optional present_optional]
    | progress unfold mbind, M_bind, mret, M_ret, get_opt, put_opt, emit,
        throw, undefined, abort
    | rewrite lookup_insert_eq
    | rewrite lookup_insert_ne by done
    | rewrite insert_insert_eq
    | match goal with H : opts _ !! _ = _ |- _ => rewrite H end
    | match goal with H : objs _ !! _ = _ |- _ => rewrite H end ].

Section optional_facts.
Context {T Args : Type} {ops : PayloadOps T Args}.
Variable NDEBUG : bool.

(** ** Running the primitives *)

Lemma invariant_cases (o : Optional T) :
  invariant o → o = empty_optional ∨ ∃ x, o = present_optional x.
Proof.
  destruct o as [[x|] []]; unfold invariant, live; cbn; intros E;
    try discriminate E; [right; by exists x | by left].
Qed.

Lemma invariant_empty : invariant (T:=T) empty_optional.
Proof. reflexivity. Qed.

Lemma invariant_present (x : T) : invariant (present_optional x).
Proof. reflexivity. Qed.

Lemma Reset_present this x (s : state T) :
  opts s !! this = Some (present_optional x) →
  Reset this s =
    Ret tt (mkState (<[this := empty_optional]> (opts s)) (objs s)
                    (log s ++ [Destroyed this])).
Proof.
  intros E. unfold Reset, load_flag, destroy, store_flag. by exec.
Qed.

Lemma Reset_empty this (s : state T) :
  opts s !! this = Some empty_optional →
  Reset this s = Ret tt s.
Proof.
  intros E. unfold Reset, load_flag. by exec.
Qed.

Lemma HasValue_lookup this o (s : state T) :
  opts s !! this = Some o → HasValue this s = Ret (m_HasValue o) s.
Proof. intros E. unfold HasValue, load_flag. by exec. Qed.

Lemma GetValue_present this x (s : state T) :
  opts s !! this = Some (present_optional x) →
  GetValue NDEBUG this s = Ret (Payload_of this) s.
Proof.
  intros E. unfold GetValue, KEEL_ASSERT, HasValue, load_flag.
  destruct NDEBUG; by exec.
Qed.

Lemma value_of_Ret (m : M T TRef) r (s s' : state T) :
  m s = Ret r s' → value_of m s = read_ref r s'.
Proof. intros E. unfold value_of, mbind, M_bind. by rewrite E. Qed.

Lemma value_of_GetValue_present this x (s : state T) :
  opts s !! this = Some (present_optional x) →
  value_of (GetValue NDEBUG this) s =
    Ret x (mkState (opts s) (objs s) (log s ++ [Accessed this])).
Proof.
  intros E. rewrite (value_of_Ret _ _ _ _ (GetValue_present _ x _ E)).
  unfold read_ref, read_bytes. by exec.
Qed.

(** ** Reset *)

(** C7: on a container that satisfies the invariant [Reset] always returns,
    leaves [HasValue() == false], destroys the payload exactly when one was
    present, changes nothing on an empty container, and a second [Reset]
    changes nothing more. *)
Theorem Reset_spec this o (s : state T) :
  opts s !! this = Some o →
  invariant o →
  ∃ s',
    Reset this s = Ret tt s' ∧
    HasValue this s' = Ret false s' ∧
    opts s' !! this = Some empty_optional ∧
    log s' = log s ++ (if m_HasValue o then [Destroyed this] else []) ∧
    (m_HasValue o = false → s' = s) ∧
    Reset this s' = Ret tt s'.
Proof.
  intros E [->|[x ->]]%invariant_cases.
  - exists s. rewrite Reset_empty by done.
    rewrite (HasValue_lookup _ _ _ E). cbn. by rewrite app_nil_r.
  - eexists. rewrite (Reset_present _ x) by done. split; [done|].
    rewrite (HasValue_lookup _ empty_optional) by (cbn; apply lookup_insert_eq).
    rewrite Reset_empty by (cbn; apply lookup_insert_eq).
    cbn. rewrite lookup_insert_eq. done.
Qed.

(** [Reset] on a container that satisfies the invariant, in one equation. *)
Lemma Reset_invariant this o (s : state T) :
  opts s !! this = Some o →
  invariant o →
  Reset this s =
    Ret tt (mkState (<[this := empty_optional]> (opts s)) (objs s)
              (log s ++ (if m_HasValue o then [Destroyed this] else []))).
Proof.
  intros E [->|[x ->]]%invariant_cases.
  - rewrite Reset_empty by done. cbn. rewrite app_nil_r, insert_id by done.
    by destruct s.
  - by rewrite (Reset_present _ x).
Qed.

(** ** Emplace *)

(** C6: [Emplace] destroys the payload the container has, if any, and then
    constructs from the arguments.  When [T]'s constructor returns [y] the
    container is present with payload [y]; when it throws, the exception
    propagates and the container is empty, its old payload gone. *)
Theorem Emplace_spec this o args (s : state T) :
  opts s !! this = Some o →
  invariant o →
  let destroyed := if m_HasValue o then [Destroyed this] else [] in
  match args_ctor args with
  | Some y =>
      ∃ s', Emplace this args s = Ret tt s' ∧
            HasValue this s' = Ret true s' ∧
            returned (value_of (GetValue NDEBUG this) s') = Some y ∧
            opts s' !! this = Some (present_optional y) ∧
            log s' = log s ++ destroyed ++ [Constructed this]
  | None =>
      ∃ s', Emplace this args s = Throw s' ∧
            HasValue this s' = Ret false s' ∧
            opts s' !! this = Some empty_optional ∧
            log s' = log s ++ destroyed
  end.
Proof.
  intros E I. cbn zeta. unfold Emplace.
  destruct (args_ctor args) as [y|];
    unfold mbind at 1, M_bind at 1; rewrite (Reset_invariant _ o) by done;
    unfold placement_new, store_flag.
  - exec. eexists. split; [reflexivity|].
    assert (L : ∀ m : gmap N (Optional T),
               <[this := present_optional y]> m !! this
               = Some (present_optional y)) by (intros; apply lookup_insert_eq).
    rewrite (HasValue_lookup _ (present_optional y)) by apply L.
    rewrite (value_of_GetValue_present _ y) by apply L.
    cbn. by rewrite L, <- app_assoc.
  - exec. eexists. split; [reflexivity|].
    rewrite (HasValue_lookup _ empty_optional) by (cbn; apply lookup_insert_eq).
    cbn. by rewrite lookup_insert_eq.
Qed.

(** ** Self-assignment *)

(** C8: assigning a present container to itself, by copy or by move, or
    assigning it its own payload, returns with the store as it was: the
    flag, the payload and the log of constructions and destructions are
    untouched.  The test is on addresses: a different container with an
    equal payload is not a self-assignment, and the destination's payload
    is destroyed. *)
Theorem self_assignment_noop this x (s : state T) :
  opts s !! this = Some (present_optional x) →
  operator_assign_copy this this s = Ret this s ∧
  operator_assign_move this this s = Ret this s ∧
  operator_assign_lvalue this (Payload_of this) s = Ret this s ∧
  operator_assign_rvalue this (Payload_of this) s = Ret this s ∧
  HasValue this s = Ret true s ∧
  returned (value_of (GetValue NDEBUG this) s) = Some x ∧
  (∀ other, other ≠ this →
     opts s !! other = Some (present_optional x) →
     ∃ s', final_state (operator_assign_copy this other s) = Some s' ∧
           Destroyed this ∈ log s').
Proof.
  intros E. unfold operator_assign_copy, operator_assign_move, operator_assign_lvalue, operator_assign_rvalue.
  rewrite !decide_False by (intros N; by apply N).
  rewrite (HasValue_lookup _ _ _ E), (value_of_GetValue_present _ x) by done.
  repeat (split; [done|]).
  intros other Hne Eo. rewrite decide_True by done.
  unfold load_flag, store_flag, construct_copy, read_ref, read_bytes,
    placement_new.
  exec. rewrite (Reset_present _ x) by done.
  exec. destruct (copy_ctor x) as [y|]; exec;
    (eexists; split; [reflexivity|]); cbn; set_solver.
Qed.

(** ** Get *)

(** C9: [Get] returns a reference to the payload when the container is
    present and the reference it was given when the container is empty;
    the store is the same after the call.  Read as values: the payload,
    respectively whatever the default reference designates. *)
Theorem Get_spec this o d (s : state T) :
  opts s !! this = Some o →
  Get this d s = Ret (if m_HasValue o then Payload_of this else d) s ∧
  (∀ x, o = present_optional x →
        returned (value_of (Get this d) s) = Some x) ∧
  (m_HasValue o = false → value_of (Get this d) s = read_ref d s).
Proof.
  intros E.
  assert (G : Get this d s
              = Ret (if m_HasValue o then Payload_of this else d) s).
  { unfold Get, HasValue, load_flag. by exec. }
  split; [done|]. rewrite (value_of_Ret _ _ _ _ G). split.
  - intros x ->. unfold read_ref, read_bytes. by exec.
  - by intros ->.
Qed.

(** ** Construction from a value *)

(** C4: a container built from a reference to a live [T] of value [v] has
    [HasValue() == true] and [GetValue()] designates [v], both for the copy
    and for the move form.  The premise of each part says what [T]'s own
    constructor does with [v]: it returns, and the object it builds is
    [v]. *)
Theorem from_value_spec this raw Value v (s : state T) :
  opts s !! this = Some raw →
  target Value s = Some v →
  (copy_ctor v = Some v →
     ∃ s', Optional_from_lvalue this Value s = Ret tt s' ∧
           HasValue this s' = Ret true s' ∧
           returned (value_of (GetValue NDEBUG this) s') = Some v) ∧
  ((move_ctor v).1 = Some v →
     ∃ s', Optional_from_rvalue this Value s = Ret tt s' ∧
           HasValue this s' = Ret true s' ∧
           returned (value_of (GetValue NDEBUG this) s') = Some v).
Proof.
  intros E Ev.
  assert (L : ∀ m : gmap N (Optional T),
             <[this := present_optional v]> m !! this
             = Some (present_optional v)) by (intros; apply lookup_insert_eq).
  assert (F : ∀ s' : state T,
             opts s' !! this = Some (present_optional v) →
             HasValue this s' = Ret true s' ∧
             returned (value_of (GetValue NDEBUG this) s') = Some v).
  { intros s' E'. rewrite (HasValue_lookup _ _ _ E').
    by rewrite (value_of_GetValue_present _ v). }
  destruct Value as [a|p]; cbn in Ev.
  - destruct (opts s !! a) as [[w b]|] eqn:Ea; cbn in Ev; [subst w|done].
    split; intros C.
    + unfold Optional_from_lvalue, construct_copy, read_ref, read_bytes,
        placement_new, store_flag.
      exec. rewrite C. exec. eexists. split; [reflexivity|]. apply F, L.
    + unfold Optional_from_rvalue, construct_move, read_ref, write_ref,
        read_bytes, write_bytes, placement_new, store_flag.
      exec. rewrite C.
      destruct (decide (a = this)) as [->|Hne]; exec;
        (eexists; split; [reflexivity|]); apply F; cbn;
        by rewrite ?lookup_insert_ne, ?lookup_insert_eq by done.
  - split; intros C.
    + unfold Optional_from_lvalue, construct_copy, read_ref, placement_new,
        store_flag.
      exec. rewrite C. exec. eexists. split; [reflexivity|]. apply F, L.
    + unfold Optional_from_rvalue, construct_move, read_ref, write_ref,
        placement_new, store_flag.
      exec. rewrite C. exec. eexists. split; [reflexivity|]. apply F, L.
Qed.

(** ** Moving from a container *)

(** C3: after move construction from a present container, and after move
    assignment from one, the source still has its flag set and a live
    payload: what [T]'s move constructor left there (or, for [a = move(a)],
    the payload it had).  This holds whether [T]'s move constructor returns
    or throws. *)
Theorem move_leaves_source_present this src o x (s : state T) :
  opts s !! src = Some (present_optional x) →
  opts s !! this = Some o →
  (this ≠ src →
     ∃ s', final_state (Optional_move this src s) = Some s' ∧
           HasValue src s' = Ret true s' ∧
           opts s' !! src = Some (present_optional (move_ctor x).2)) ∧
  (invariant o →
     ∃ s', final_state (operator_assign_move this src s) = Some s' ∧
           HasValue src s' = Ret true s' ∧
           opts s' !! src =
             Some (present_optional
                     (if decide (src = this) then x else (move_ctor x).2))).
Proof.
  intros Es E. split.
  - intros Hne.
    unfold Optional_move, load_flag, store_flag, construct_move, read_ref,
      write_ref, read_bytes, write_bytes, placement_new.
    exec. destruct (move_ctor x).1 as [y|]; exec;
      (eexists; split; [reflexivity|]);
      rewrite (HasValue_lookup _ (present_optional (move_ctor x).2))
        by (cbn; by rewrite ?lookup_insert_ne, lookup_insert_eq by done);
      (split; [done|]); cbn;
      by rewrite ?lookup_insert_ne, lookup_insert_eq by done.
  - intros I. unfold operator_assign_move. destruct (decide (src = this)) as [->|Hne].
    + rewrite decide_False by (intros N; by apply N).
      exists s. split; [done|].
      by rewrite (HasValue_lookup _ _ _ Es).
    + rewrite decide_True by done. exec.
      rewrite (Reset_invariant _ o) by done.
      unfold load_flag, store_flag, construct_move, read_ref,
        write_ref, read_bytes, write_bytes, placement_new.
      exec. destruct (move_ctor x).1 as [y|]; exec;
        (eexists; split; [reflexivity|]);
        rewrite (HasValue_lookup _ (present_optional (move_ctor x).2))
          by (cbn; by rewrite ?lookup_insert_ne, lookup_insert_eq by done);
        (split; [done|]); cbn;
        by rewrite ?lookup_insert_ne, lookup_insert_eq by done.
Qed.

(** ** Exceptions during assignment *)

(** Assignment from a value sets the flag after the construction, so a
    throwing constructor leaves the destination empty. *)
Lemma operator_assign_lvalue_throw this o p x (s : state T) :
  opts s !! this = Some o →
  invariant o →
  objs s !! p = Some x →
  copy_ctor x = None →
  ∃ s', operator_assign_lvalue this (Object_at p) s = Throw s' ∧
        opts s' !! this = Some empty_optional.
Proof.
  intros E I Ep C. unfold operator_assign_lvalue. rewrite decide_True by done.
  exec. rewrite (Reset_invariant _ o) by done.
  unfold construct_copy, read_ref, placement_new. exec. rewrite C. exec.
  eexists. split; [reflexivity|]. cbn. by rewrite lookup_insert_eq.
Qed.

(** Assignment from another container copies the flag before the
    construction: when [T]'s constructor throws, the destination keeps
    [m_HasValue == true] over bytes that host no object. *)
Lemma operator_assign_copy_throw this src o x (s : state T) :
  src ≠ this →
  opts s !! this = Some o →
  invariant o →
  opts s !! src = Some (present_optional x) →
  copy_ctor x = None →
  ∃ s', operator_assign_copy this src s = Throw s' ∧
        opts s' !! this = Some (mkOptional None true).
Proof.
  intros Hne E I Es C. unfold operator_assign_copy. rewrite decide_True by done.
  exec. rewrite (Reset_invariant _ o) by done.
  unfold load_flag, store_flag, construct_copy, read_ref, read_bytes,
    placement_new.
  exec. rewrite C. exec.
  eexists. split; [reflexivity|]. cbn. by rewrite lookup_insert_eq.
Qed.

Lemma operator_assign_move_throw this src o x (s : state T) :
  src ≠ this →
  opts s !! this = Some o →
  invariant o →
  opts s !! src = Some (present_optional x) →
  (move_ctor x).1 = None →
  ∃ s', operator_assign_move this src s = Throw s' ∧
        opts s' !! this = Some (mkOptional None true).
Proof.
  intros Hne E I Es C. unfold operator_assign_move. rewrite decide_True by done.
  exec. rewrite (Reset_invariant _ o) by done.
  unfold load_flag, store_flag, construct_move, read_ref, write_ref,
    read_bytes, write_bytes, placement_new.
  exec. rewrite C. exec.
  eexists. split; [reflexivity|]. cbn.
  by rewrite ?lookup_insert_ne, lookup_insert_eq by done.
Qed.

(** In that state the destructor, like any [Reset], destroys an object
    that is not there. *)
Lemma Reset_flag_without_payload this (s : state T) :
  opts s !! this = Some (mkOptional None true) →
  Reset this s = Undefined.
Proof. intros E. unfold Reset, load_flag, destroy. by exec. Qed.

End optional_facts.

(** ** The theorems at concrete stores *)

(** C1 on [Fragile]: the container at 1 is assigned from the container at
    2, whose payload cannot be copied or moved.  The exception propagates
    and the destination is left with [m_HasValue == true] over bytes without
    an object, which is not the empty state, and on which the destructor is
    undefined.  Assigning the same value from a [T] object leaves the
    destination empty. *)
Theorem container_assignment_throw_leaves_flag_set :
  (∃ s', operator_assign_copy (ops:=fragile_ops) 1%N 2%N fragile_store = Throw s' ∧
         opts s' !! 1%N = Some (mkOptional None true) ∧
         ¬ left_empty 1%N s' ∧
         Optional_dtor 1%N s' = Undefined) ∧
  (∃ s', operator_assign_move (ops:=fragile_ops) 1%N 2%N fragile_store = Throw s' ∧
         opts s' !! 1%N = Some (mkOptional None true) ∧
         ¬ left_empty 1%N s' ∧
         Optional_dtor 1%N s' = Undefined) ∧
  (∃ s', operator_assign_lvalue (ops:=fragile_ops) 1%N (Object_at 10%N) fragile_store
           = Throw s' ∧
         left_empty 1%N s').
Proof.
  split_and!.
  - destruct (operator_assign_copy_throw (ops:=fragile_ops) 1%N 2%N
                (present_optional 7%Z) (-1)%Z fragile_store)
      as (s' & E & L); [done..|].
    exists s'. split_and!; [done..| |].
    + unfold left_empty. rewrite L. discriminate.
    + by apply Reset_flag_without_payload.
  - destruct (operator_assign_move_throw (ops:=fragile_ops) 1%N 2%N
                (present_optional 7%Z) (-1)%Z fragile_store)
      as (s' & E & L); [done..|].
    exists s'. split_and!; [done..| |].
    + unfold left_empty. rewrite L. discriminate.
    + by apply Reset_flag_without_payload.
  - destruct (operator_assign_lvalue_throw (ops:=fragile_ops) 1%N
                (present_optional 7%Z) 10%N (-1)%Z fragile_store)
      as (s' & E & L); [done..|].
    by exists s'.
Qed.

(** C7 on the present container at 1. *)
Lemma Reset_spec_witness :
  opts int_store !! 1%N = Some (present_optional 7%Z) ∧
  invariant (present_optional 7%Z) ∧
  ∃ s', Reset 1%N int_store = Ret tt s' ∧
        HasValue 1%N s' = Ret false s' ∧
        opts s' !! 1%N = Some empty_optional ∧
        log s' = log int_store ++ [Destroyed 1%N] ∧
        Reset 1%N s' = Ret tt s'.
Proof.
  assert (E : opts int_store !! 1%N = Some (present_optional 7%Z))
    by reflexivity.
  assert (I : invariant (present_optional 7%Z)) by reflexivity.
  destruct (Reset_spec 1%N _ int_store E I) as (s' & ? & ? & ? & ? & ? & ?).
  split_and!; [exact E|exact I|]. exists s'. split_and!; assumption.
Defined.

(** C6 on the present container at 1 of [Fragile]: [Emplace(9)] returns,
    [Emplace(-1)] throws. *)
Lemma Emplace_spec_witness :
  opts fragile_store !! 1%N = Some (present_optional 7%Z) ∧
  invariant (present_optional 7%Z) ∧
  (∃ s', Emplace (ops:=fragile_ops) 1%N 9%Z fragile_store = Ret tt s' ∧
         HasValue 1%N s' = Ret true s' ∧
         returned (value_of (GetValue false 1%N) s') = Some 9%Z ∧
         log s' = [Destroyed 1%N; Constructed 1%N]) ∧
  (∃ s', Emplace (ops:=fragile_ops) 1%N (-1)%Z fragile_store = Throw s' ∧
         HasValue 1%N s' = Ret false s' ∧
         log s' = [Destroyed 1%N]).
Proof.
  assert (E : opts fragile_store !! 1%N = Some (present_optional 7%Z))
    by reflexivity.
  assert (I : invariant (present_optional 7%Z)) by reflexivity.
  split_and!; [exact E|exact I| |].
  - destruct (Emplace_spec (ops:=fragile_ops) false 1%N _ 9%Z fragile_store
                E I) as (s' & ? & ? & ? & ? & ?).
    exists s'. split_and!; assumption.
  - destruct (Emplace_spec (ops:=fragile_ops) false 1%N _ (-1)%Z
                fragile_store E I) as (s' & ? & ? & ? & ?).
    exists s'. split_and!; assumption.
Defined.

(** C8 on the container at 1; the container at 3 holds an equal payload. *)
Lemma self_assignment_noop_witness :
  opts int_store !! 1%N = Some (present_optional 7%Z) ∧
  operator_assign_copy (ops:=int_ops) 1%N 1%N int_store = Ret 1%N int_store ∧
  operator_assign_move (ops:=int_ops) 1%N 1%N int_store = Ret 1%N int_store ∧
  operator_assign_lvalue (ops:=int_ops) 1%N (Payload_of 1%N) int_store
    = Ret 1%N int_store ∧
  operator_assign_rvalue (ops:=int_ops) 1%N (Payload_of 1%N) int_store
    = Ret 1%N int_store ∧
  returned (value_of (GetValue true 1%N) int_store) = Some 7%Z ∧
  ∃ s', final_state (operator_assign_copy (ops:=int_ops) 1%N 3%N int_store) = Some s' ∧
        Destroyed 1%N ∈ log s'.
Proof.
  assert (E : opts int_store !! 1%N = Some (present_optional 7%Z))
    by reflexivity.
  destruct (self_assignment_noop (ops:=int_ops) true 1%N 7%Z int_store E)
    as (? & ? & ? & ? & _ & ? & D).
  split_and!; [exact E|assumption..|].
  apply (D 3%N); [discriminate|reflexivity].
Defined.

(** C9 on the present container at 1 and the empty one at 2; the default
    is the payload of the container at 3, equal to that of 1. *)
Lemma Get_spec_witness :
  opts int_store !! 1%N = Some (present_optional 7%Z) ∧
  opts int_store !! 2%N = Some empty_optional ∧
  Get 1%N (Payload_of 3%N) int_store = Ret (Payload_of 1%N) int_store ∧
  returned (value_of (Get 1%N (Payload_of 3%N)) int_store) = Some 7%Z ∧
  Get 2%N (Payload_of 3%N) int_store = Ret (Payload_of 3%N) int_store ∧
  value_of (Get 2%N (Payload_of 3%N)) int_store
    = read_ref (Payload_of 3%N) int_store.
Proof.
  assert (E1 : opts int_store !! 1%N = Some (present_optional 7%Z))
    by reflexivity.
  assert (E2 : opts int_store !! 2%N = Some empty_optional) by reflexivity.
  destruct (Get_spec 1%N _ (Payload_of 3%N) int_store E1) as (G1 & V1 & _).
  destruct (Get_spec 2%N _ (Payload_of 3%N) int_store E2) as (G2 & _ & V2).
  split_and!; [exact E1|exact E2|exact G1| |exact G2|].
  - exact (V1 7%Z eq_refl).
  - exact (V2 eq_refl).
Defined.

(** C4: a container built in the storage at 2 from the [int] object at
    10. *)
Lemma from_value_spec_witness :
  opts int_store !! 2%N = Some empty_optional ∧
  target (Object_at 10%N) int_store = Some 42%Z ∧
  (∃ s', Optional_from_lvalue (ops:=int_ops) 2%N (Object_at 10%N) int_store
           = Ret tt s' ∧
         HasValue 2%N s' = Ret true s' ∧
         returned (value_of (GetValue false 2%N) s') = Some 42%Z) ∧
  (∃ s', Optional_from_rvalue (ops:=int_ops) 2%N (Object_at 10%N) int_store
           = Ret tt s' ∧
         HasValue 2%N s' = Ret true s' ∧
         returned (value_of (GetValue false 2%N) s') = Some 42%Z).
Proof.
  assert (E : opts int_store !! 2%N = Some empty_optional) by reflexivity.
  assert (P : target (Object_at 10%N) int_store = Some 42%Z) by reflexivity.
  destruct (from_value_spec (ops:=int_ops) false 2%N _ (Object_at 10%N) 42%Z
              int_store E P) as [C V].
  split_and!; [exact E|exact P|exact (C eq_refl)|exact (V eq_refl)].
Defined.

(** C3 on vectors: after the move the source at 1 is present and holds
    no elements. *)
Lemma move_leaves_source_present_witness :
  opts vec_store !! 1%N = Some (present_optional [1; 2; 3]%Z) ∧
  opts vec_store !! 2%N = Some empty_optional ∧
  (∃ s', final_state (Optional_move (ops:=vec_ops) 2%N 1%N vec_store)
           = Some s' ∧
         HasValue 1%N s' = Ret true s' ∧
         opts s' !! 1%N = Some (present_optional [])) ∧
  (∃ s', final_state (operator_assign_move (ops:=vec_ops) 2%N 1%N vec_store)
           = Some s' ∧
         HasValue 1%N s' = Ret true s' ∧
         opts s' !! 1%N = Some (present_optional [])).
Proof.
  assert (E1 : opts vec_store !! 1%N = Some (present_optional [1; 2; 3]%Z))
    by reflexivity.
  assert (E2 : opts vec_store !! 2%N = Some empty_optional) by reflexivity.
  destruct (move_leaves_source_present (ops:=vec_ops) 2%N 1%N _ _
              vec_store E1 E2) as [C A].
  split_and!; [exact E1|exact E2| |].
  - apply C. discriminate.
  - apply A. reflexivity.
Defined.

(** ** The scenarios of the specification *)

Example scenario_emplace_returns :
  returned (scenario_emplace raw_store) = Some (false, 42, true, 7, 7)%Z.
Proof. reflexivity. Qed.

Example scenario_copy_then_reset_returns :
  returned (scenario_copy_then_reset raw_store) = Some (false, true, 42%Z).
Proof. reflexivity. Qed.

(** * Further properties of the member functions *)

Ltac same_map :=
  apply map_eq; intros ?;
  repeat (rewrite lookup_insert; case_decide; simplify_eq); done.

Section optional_more.
Context {T Args : Type} {ops : PayloadOps T Args}.
Variable NDEBUG : bool.

(** ** What each mutating call computes *)

Lemma Emplace_outcome this o args (s : state T) :
  opts s !! this = Some o →
  invariant o →
  Emplace this args s =
    match args_ctor args with
    | Some y =>
        Ret tt (mkState (<[this := present_optional y]> (opts s)) (objs s)
                  (log s ++ reset_events this o ++ [Constructed this]))
    | None =>
        Throw (mkState (<[this := empty_optional]> (opts s)) (objs s)
                 (log s ++ reset_events this o))
    end.
Proof.
  intros E I. unfold Emplace. exec. rewrite (Reset_invariant _ o) by done.
  unfold placement_new, store_flag.
  destruct (args_ctor args) as [y|]; exec; [|done].
  by rewrite <- app_assoc.
Qed.

Lemma read_ref_target Value v (s : state T) :
  target Value s = Some v →
  read_ref Value s =
    Ret v (mkState (opts s) (objs s) (log s ++ read_events Value)).
Proof.
  intros Ev. destruct Value as [a|p]; cbn in *.
  - destruct (opts s !! a) as [[w b]|] eqn:Ea; cbn in Ev; [subst w|done].
    unfold read_bytes. by exec.
  - rewrite Ev, app_nil_r. by destruct s.
Qed.

Lemma target_insert_ne Value this (o : Optional T) (s : state T) l :
  Value ≠ Payload_of this →
  target Value (mkState (<[this := o]> (opts s)) (objs s) l) = target Value s.
Proof.
  intros Hne. destruct Value as [a|p]; cbn; [|done].
  rewrite lookup_insert_ne; [done|congruence].
Qed.

Lemma operator_assign_lvalue_outcome this o Value v (s : state T) :
  opts s !! this = Some o →
  invariant o →
  target Value s = Some v →
  Value ≠ Payload_of this →
  operator_assign_lvalue this Value s =
    match copy_ctor v with
    | Some y =>
        Ret this (mkState (<[this := present_optional y]> (opts s)) (objs s)
                    (log s ++ reset_events this o ++ read_events Value
                       ++ [Constructed this]))
    | None =>
        Throw (mkState (<[this := empty_optional]> (opts s)) (objs s)
                 (log s ++ reset_events this o ++ read_events Value))
    end.
Proof.
  intros E I Ev Hne. unfold operator_assign_lvalue.
  rewrite decide_True by done. exec.
  rewrite (Reset_invariant _ o) by done. unfold construct_copy. exec.
  rewrite (read_ref_target Value v) by (by rewrite target_insert_ne).
  unfold placement_new, store_flag.
  destruct (copy_ctor v) as [y|]; exec; by rewrite <- !app_assoc.
Qed.

Lemma operator_assign_copy_outcome this src o os (s : state T) :
  src ≠ this →
  opts s !! this = Some o →
  invariant o →
  opts s !! src = Some os →
  invariant os →
  operator_assign_copy this src s =
    match m_Value os with
    | None =>
        Ret this (mkState (<[this := empty_optional]> (opts s)) (objs s)
                    (log s ++ reset_events this o))
    | Some x =>
        match copy_ctor x with
        | Some y =>
            Ret this (mkState (<[this := present_optional y]> (opts s))
                        (objs s)
                        (log s ++ reset_events this o
                           ++ [Accessed src; Constructed this]))
        | None =>
            Throw (mkState (<[this := mkOptional None true]> (opts s))
                     (objs s)
                     (log s ++ reset_events this o ++ [Accessed src]))
        end
    end.
Proof.
  intros Hne E I Es [->|[x ->]]%invariant_cases;
    unfold operator_assign_copy; rewrite decide_True by done; exec;
    rewrite (Reset_invariant _ o) by done;
    unfold load_flag, store_flag, construct_copy, read_ref, read_bytes,
      placement_new; exec; [done|].
  destruct (copy_ctor x) as [y|]; exec; by rewrite <- !app_assoc.
Qed.

Lemma operator_assign_move_outcome this src o os (s : state T) :
  src ≠ this →
  opts s !! this = Some o →
  invariant o →
  opts s !! src = Some os →
  invariant os →
  operator_assign_move this src s =
    match m_Value os with
    | None =>
        Ret this (mkState (<[this := empty_optional]> (opts s)) (objs s)
                    (log s ++ reset_events this o))
    | Some x =>
        match (move_ctor x).1 with
        | Some y =>
            Ret this (mkState (<[this := present_optional y]>
                                 (<[src := present_optional (move_ctor x).2]>
                                    (opts s)))
                        (objs s)
                        (log s ++ reset_events this o
                           ++ [Accessed src; Constructed this]))
        | None =>
            Throw (mkState (<[this := mkOptional None true]>
                              (<[src := present_optional (move_ctor x).2]>
                                 (opts s)))
                     (objs s)
                     (log s ++ reset_events this o ++ [Accessed src]))
        end
    end.
Proof.
  intros Hne E I Es [->|[x ->]]%invariant_cases;
    unfold operator_assign_move; rewrite decide_True by done; exec;
    rewrite (Reset_invariant _ o) by done;
    unfold load_flag, store_flag, construct_move, read_ref, write_ref,
      read_bytes, write_bytes, placement_new; exec; [done|].
  destruct (move_ctor x).1 as [y|]; exec;
    rewrite <- ?app_assoc; cbn; do 2 f_equal; same_map.
Qed.

Lemma Optional_copy_outcome this src raw os (s : state T) :
  src ≠ this →
  opts s !! this = Some raw →
  m_Value raw = None →
  opts s !! src = Some os →
  invariant os →
  Optional_copy this src s =
    match m_Value os with
    | None =>
        Ret tt (mkState (<[this := empty_optional]> (opts s)) (objs s)
                  (log s))
    | Some x =>
        match copy_ctor x with
        | Some y =>
            Ret tt (mkState (<[this := present_optional y]> (opts s))
                      (objs s)
                      (log s ++ [Accessed src; Constructed this]))
        | None =>
            Throw (mkState (<[this := mkOptional None true]> (opts s))
                     (objs s) (log s ++ [Accessed src]))
        end
    end.
Proof.
  intros Hne E Hraw Es [->|[x ->]]%invariant_cases;
    unfold Optional_copy, load_flag, store_flag, construct_copy, read_ref,
    read_bytes, placement_new; exec; rewrite ?Hraw; [done|].
  destruct (copy_ctor x) as [y|]; exec; by rewrite <- ?app_assoc.
Qed.

Lemma Optional_move_outcome this src raw os (s : state T) :
  src ≠ this →
  opts s !! this = Some raw →
  m_Value raw = None →
  opts s !! src = Some os →
  invariant os →
  Optional_move this src s =
    match m_Value os with
    | None =>
        Ret tt (mkState (<[this := empty_optional]> (opts s)) (objs s)
                  (log s))
    | Some x =>
        match (move_ctor x).1 with
        | Some y =>
            Ret tt (mkState (<[this := present_optional y]>
                               (<[src := present_optional (move_ctor x).2]>
                                  (opts s)))
                      (objs s)
                      (log s ++ [Accessed src; Constructed this]))
        | None =>
            Throw (mkState (<[this := mkOptional None true]>
                              (<[src := present_optional (move_ctor x).2]>
                                 (opts s)))
                     (objs s) (log s ++ [Accessed src]))
        end
    end.
Proof.
  intros Hne E Hraw Es [->|[x ->]]%invariant_cases;
    unfold Optional_move, load_flag, store_flag, construct_move, read_ref,
    write_ref, read_bytes, write_bytes, placement_new; exec; rewrite ?Hraw;
    [done|].
  destruct (move_ctor x).1 as [y|]; exec;
    rewrite <- ?app_assoc; cbn; do 2 f_equal; same_map.
Qed.

Lemma read_ref_no_target Value (s : state T) :
  target Value s = None → read_ref Value s = Undefined.
Proof.
  intros Ev. destruct Value as [a|p]; cbn in *.
  - unfold read_bytes. exec.
    destruct (opts s !! a) as [[[w|] b]|]; cbn in *; done.
  - by rewrite Ev.
Qed.

Lemma Optional_from_lvalue_outcome this raw Value v (s : state T) :
  opts s !! this = Some raw →
  target Value s = Some v →
  Optional_from_lvalue this Value s =
    match copy_ctor v with
    | Some y =>
        Ret tt (mkState (<[this := present_optional y]> (opts s)) (objs s)
                  (log s ++ read_events Value ++ [Constructed this]))
    | None =>
        Throw (mkState (opts s) (objs s) (log s ++ read_events Value))
    end.
Proof.
  intros E Ev. unfold Optional_from_lvalue, construct_copy. exec.
  rewrite (read_ref_target Value v) by done.
  unfold placement_new, store_flag.
  destruct (copy_ctor v) as [y|]; exec; by rewrite <- ?app_assoc.
Qed.

(** ** Assignment from a value *)

(** X7: [a = v] for a [T] other than [a]'s own payload: the old payload is
    destroyed, then [v] is copied in.  When [T]'s copy constructor returns
    [y] the container is present with [y]; when it throws, the container
    is left empty.  Nothing else in the store changes. *)
Theorem operator_assign_lvalue_spec this o Value v (s : state T) :
  opts s !! this = Some o →
  invariant o →
  target Value s = Some v →
  Value ≠ Payload_of this →
  operator_assign_lvalue this Value s =
    match copy_ctor v with
    | Some y =>
        Ret this (mkState (<[this := present_optional y]> (opts s)) (objs s)
                    (log s ++ reset_events this o ++ read_events Value
                       ++ [Constructed this]))
    | None =>
        Throw (mkState (<[this := empty_optional]> (opts s)) (objs s)
                 (log s ++ reset_events this o ++ read_events Value))
    end.
Proof. apply operator_assign_lvalue_outcome. Qed.

Lemma operator_assign_rvalue_post this o Value v (s : state T) :
  opts s !! this = Some o →
  invariant o →
  target Value s = Some v →
  Value ≠ Payload_of this →
  ∃ s',
    match (move_ctor v).1 with
    | Some y =>
        operator_assign_rvalue this Value s = Ret this s' ∧
        opts s' !! this = Some (present_optional y) ∧
        log s' = log s ++ reset_events this o ++ read_events Value
                   ++ [Constructed this]
    | None =>
        operator_assign_rvalue this Value s = Throw s' ∧
        opts s' !! this = Some empty_optional ∧
        log s' = log s ++ reset_events this o ++ read_events Value
    end ∧
    target Value s' = Some (move_ctor v).2 ∧
    (∀ a, a ≠ this → Payload_of a ≠ Value → opts s' !! a = opts s !! a) ∧
    (∀ a, a ≠ this →
          m_HasValue <$> opts s' !! a = m_HasValue <$> opts s !! a) ∧
    (∀ p, Object_at p ≠ Value → objs s' !! p = objs s !! p).
Proof.
  intros E I Ev Hne. unfold operator_assign_rvalue.
  rewrite decide_True by done. exec.
  rewrite (Reset_invariant _ o) by done. unfold construct_move. exec.
  rewrite (read_ref_target Value v) by (by rewrite target_insert_ne).
  destruct Value as [a|p]; cbn in Ev |- *.
  - assert (a ≠ this) by congruence.
    destruct (opts s !! a) as [[w b]|] eqn:Ea; cbn in Ev; [subst w|done].
    unfold write_bytes, placement_new, store_flag.
    destruct (move_ctor v).1 as [y|]; exec; eexists;
      (split; [split_and!; [reflexivity| |]|split_and!]); cbn;
      rewrite <- ?app_assoc; try done.
    all: try (by rewrite ?lookup_insert_ne, ?lookup_insert_eq by done).
    all: intros a' ?; try intros ?;
      try (by rewrite !lookup_insert_ne by congruence).
    all: destruct (decide (a = a')) as [<-|];
      [by rewrite ?lookup_insert_ne, lookup_insert_eq, Ea by done
      |by rewrite !lookup_insert_ne by done].
  - unfold placement_new, store_flag. exec.
    destruct (move_ctor v).1 as [y|]; exec; eexists;
      (split; [split_and!; [reflexivity| |]|split_and!]); cbn;
      rewrite <- ?app_assoc, ?app_nil_r; try done.
    all: try (by rewrite ?lookup_insert_ne, ?lookup_insert_eq by done).
    all: intros; by rewrite !lookup_insert_ne by congruence.
Qed.

(** X8: [a = std::move(v)]: as for the copy form, and the source is left
    holding what [T]'s move constructor left in it, whether that
    constructor returned or threw.  No other container changes. *)
Theorem operator_assign_rvalue_spec this o Value v (s : state T) :
  opts s !! this = Some o →
  invariant o →
  target Value s = Some v →
  Value ≠ Payload_of this →
  ∃ s',
    match (move_ctor v).1 with
    | Some y =>
        operator_assign_rvalue this Value s = Ret this s' ∧
        opts s' !! this = Some (present_optional y) ∧
        log s' = log s ++ reset_events this o ++ read_events Value
                   ++ [Constructed this]
    | None =>
        operator_assign_rvalue this Value s = Throw s' ∧
        opts s' !! this = Some empty_optional ∧
        log s' = log s ++ reset_events this o ++ read_events Value
    end ∧
    target Value s' = Some (move_ctor v).2 ∧
    (∀ a, a ≠ this → Payload_of a ≠ Value → opts s' !! a = opts s !! a) ∧
    (∀ a, a ≠ this →
          m_HasValue <$> opts s' !! a = m_HasValue <$> opts s !! a) ∧
    (∀ p, Object_at p ≠ Value → objs s' !! p = objs s !! p).
Proof. apply operator_assign_rvalue_post. Qed.

(** ** The invariant over client programs *)

Lemma store_ok_insert this (o : Optional T) (s : state T) ob l :
  store_ok s → invariant o →
  store_ok (mkState (<[this := o]> (opts s)) ob l).
Proof. intros Hs I. by apply map_Forall_insert_2. Qed.

Lemma store_ok_lookup this (o : Optional T) (s : state T) :
  store_ok s → opts s !! this = Some o → invariant o.
Proof. intros Hs E. exact (map_Forall_lookup_1 _ _ _ _ Hs E). Qed.

Lemma Reset_missing this (s : state T) :
  opts s !! this = None → Reset this s = Undefined.
Proof. intros E. unfold Reset, load_flag. by exec. Qed.

Lemma run_call_store_ok (c : call Args) (s : state T) :
  store_ok s →
  match run_call c s with
  | Ret _ s' => store_ok s'
  | Throw s' => from_value c = true → store_ok s'
  | _ => True
  end.
Proof.
  intros Hs. destruct c as [this|this args|this src|this src|this Value
                            |this Value]; cbn [run_call from_value].
  - destruct (opts s !! this) as [o|] eqn:E; [|by rewrite Reset_missing].
    pose proof (store_ok_lookup _ _ _ Hs E) as I.
    rewrite (Reset_invariant _ o) by done. by apply store_ok_insert.
  - destruct (opts s !! this) as [o|] eqn:E.
    + pose proof (store_ok_lookup _ _ _ Hs E) as I.
      rewrite (Emplace_outcome _ o) by done.
      destruct (args_ctor args); intros; by apply store_ok_insert.
    + unfold Emplace. exec. by rewrite Reset_missing.
  - exec. destruct (decide (src = this)) as [->|Hne].
    { unfold operator_assign_copy. rewrite decide_False by naive_solver.
      by exec. }
    destruct (opts s !! this) as [o|] eqn:E; cycle 1.
    { unfold operator_assign_copy. rewrite decide_True by done. exec.
      by rewrite Reset_missing. }
    pose proof (store_ok_lookup _ _ _ Hs E) as I.
    destruct (opts s !! src) as [os|] eqn:Es; cycle 1.
    { unfold operator_assign_copy. rewrite decide_True by done. exec.
      rewrite (Reset_invariant _ o) by done. unfold load_flag. by exec. }
    pose proof (store_ok_lookup _ _ _ Hs Es) as Is.
    rewrite (operator_assign_copy_outcome _ _ o os) by done.
    destruct (m_Value os) as [x|]; [destruct (copy_ctor x)|];
      try done; by apply store_ok_insert.
  - exec. destruct (decide (src = this)) as [->|Hne].
    { unfold operator_assign_move. rewrite decide_False by naive_solver.
      by exec. }
    destruct (opts s !! this) as [o|] eqn:E; cycle 1.
    { unfold operator_assign_move. rewrite decide_True by done. exec.
      by rewrite Reset_missing. }
    pose proof (store_ok_lookup _ _ _ Hs E) as I.
    destruct (opts s !! src) as [os|] eqn:Es; cycle 1.
    { unfold operator_assign_move. rewrite decide_True by done. exec.
      rewrite (Reset_invariant _ o) by done. unfold load_flag. by exec. }
    pose proof (store_ok_lookup _ _ _ Hs Es) as Is.
    rewrite (operator_assign_move_outcome _ _ o os) by done.
    destruct (m_Value os) as [x|]; [destruct (move_ctor x).1|];
      try done; [|by apply store_ok_insert].
    apply map_Forall_insert_2; [done|]. by apply map_Forall_insert_2.
  - exec. destruct (decide (Value = Payload_of this)) as [->|Hne].
    { unfold operator_assign_lvalue. rewrite decide_False by naive_solver.
      by exec. }
    destruct (opts s !! this) as [o|] eqn:E; cycle 1.
    { unfold operator_assign_lvalue. rewrite decide_True by done. exec.
      by rewrite Reset_missing. }
    pose proof (store_ok_lookup _ _ _ Hs E) as I.
    destruct (target Value s) as [v|] eqn:Ev; cycle 1.
    { unfold operator_assign_lvalue. rewrite decide_True by done. exec.
      rewrite (Reset_invariant _ o) by done. unfold construct_copy. exec.
      by rewrite read_ref_no_target by (by rewrite target_insert_ne). }
    rewrite (operator_assign_lvalue_outcome _ o _ v) by done.
    destruct (copy_ctor v); intros; by apply store_ok_insert.
  - exec. destruct (decide (Value = Payload_of this)) as [->|Hne].
    { unfold operator_assign_rvalue. rewrite decide_False by naive_solver.
      by exec. }
    destruct (opts s !! this) as [o|] eqn:E; cycle 1.
    { unfold operator_assign_rvalue. rewrite decide_True by done. exec.
      by rewrite Reset_missing. }
    pose proof (store_ok_lookup _ _ _ Hs E) as I.
    destruct (target Value s) as [v|] eqn:Ev; cycle 1.
    { unfold operator_assign_rvalue. rewrite decide_True by done. exec.
      rewrite (Reset_invariant _ o) by done. unfold construct_move. exec.
      by rewrite read_ref_no_target by (by rewrite target_insert_ne). }
    destruct (operator_assign_rvalue_post _ o _ v s E I Ev Hne)
      as (s' & Hout & Ht & Hframe & Hflags & _).
    assert (Hok : store_ok s').
    { apply map_Forall_lookup_2. intros a o' Ea.
      destruct (decide (a = this)) as [->|Ha].
      { destruct (move_ctor v).1; destruct Hout as (_ & E' & _);
          rewrite E' in Ea; by simplify_eq. }
      destruct (decide (Payload_of a = Value)) as [<-|Hv].
      - cbn in Ht, Ev. rewrite Ea in Ht. cbn in Ht.
        specialize (Hflags a Ha). rewrite Ea in Hflags.
        destruct (opts s !! a) as [oa|] eqn:Eoa; [|done].
        pose proof (store_ok_lookup _ _ _ Hs Eoa) as Ia.
        cbn in Ev, Hflags. unfold invariant, live in *.
        rewrite Ev in Ia. rewrite Ht. congruence.
      - rewrite Hframe in Ea by done. by eapply store_ok_lookup. }
    destruct (move_ctor v).1; destruct Hout as (-> & _); done.
Qed.

(** X14: a program of calls that returns, started in a store whose
    containers all satisfy the presence invariant, ends in such a store. *)
Theorem returning_program_keeps_invariant (cs : list (call Args))
    (s s' : state T) :
  store_ok s →
  run_calls cs s = Ret tt s' →
  store_ok s'.
Proof.
  revert s. induction cs as [|c cs IH]; intros s Hs; cbn [run_calls].
  - by intros [= <-].
  - pose proof (run_call_store_ok c s Hs) as Hc. exec.
    destruct (run_call c s) as [[] s1| | |]; try done. by apply IH.
Qed.

(** ** Access to an empty container *)

(** X9: [GetValue] on an empty container.  With assertions on, the call
    aborts.  With [NDEBUG] it returns a reference to the bytes, and using
    that reference as a [T] is undefined.  [operator*] and [operator->]
    behave as [GetValue]. *)
Theorem GetValue_on_empty this (s : state T) :
  opts s !! this = Some empty_optional →
  GetValue NDEBUG this s = (if NDEBUG then Ret (Payload_of this) s else Abort) ∧
  value_of (GetValue NDEBUG this) s = (if NDEBUG then Undefined else Abort) ∧
  operator_deref NDEBUG this s = GetValue NDEBUG this s ∧
  operator_arrow NDEBUG this s = GetValue NDEBUG this s.
Proof.
  intros E. unfold operator_deref, operator_arrow, value_of, GetValue,
    KEEL_ASSERT, HasValue, load_flag, read_ref, read_bytes.
  destruct NDEBUG; by exec.
Qed.

(** X10: the conversion to [T*] returns the null pointer when the flag is
    clear and the address [GetValue] returns when it is set; it leaves the
    store alone and does not assert.  [operator bool] is [HasValue]. *)
Theorem operator_ptr_spec this o (s : state T) :
  opts s !! this = Some o →
  operator_ptr this s =
    Ret (if m_HasValue o then Some (Payload_of this) else None) s ∧
  operator_bool this s = HasValue this s ∧
  (m_HasValue o = true →
     Some <$> returned (GetValue NDEBUG this s)
     = returned (operator_ptr this s)).
Proof.
  intros E. unfold operator_ptr, operator_bool, GetValue, KEEL_ASSERT,
    HasValue, load_flag.
  split_and!; [by exec|done|]. intros Hf. destruct NDEBUG; exec;
    by rewrite Hf.
Qed.

(** ** Constructors *)

(** X1: the default constructor makes the storage an empty container
    whatever the flag's byte held, constructs no [T], and [Get] on the
    result returns its default. *)
Theorem Optional_default_spec this raw (s : state T) :
  opts s !! this = Some raw →
  m_Value raw = None →
  ∃ s', Optional_default this s = Ret tt s' ∧
        opts s' !! this = Some empty_optional ∧
        log s' = log s ∧
        HasValue this s' = Ret false s' ∧
        operator_ptr this s' = Ret None s' ∧
        ∀ d, Get this d s' = Ret d s'.
Proof.
  intros E Hraw. unfold Optional_default, store_flag. exec. rewrite Hraw.
  eexists. split; [reflexivity|].
  unfold Get, operator_ptr, HasValue, load_flag. by exec.
Qed.

(** X2: [Optional(const T&)] from a live [T] of value [v].  When [T]'s copy
    constructor returns [y] the container is present with [y]; when it
    throws, the exception propagates and the storage is as it was. *)
Theorem Optional_from_lvalue_spec this raw Value v (s : state T) :
  opts s !! this = Some raw →
  target Value s = Some v →
  Optional_from_lvalue this Value s =
    match copy_ctor v with
    | Some y =>
        Ret tt (mkState (<[this := present_optional y]> (opts s)) (objs s)
                  (log s ++ read_events Value ++ [Constructed this]))
    | None =>
        Throw (mkState (opts s) (objs s) (log s ++ read_events Value))
    end.
Proof. apply Optional_from_lvalue_outcome. Qed.

(** X3: the copy constructor from a container other than itself: an empty
    source gives an empty container without any [T] being constructed; a
    present source gives a container present with the copy, the source
    read once and unchanged; a throw of [T]'s copy constructor propagates
    and leaves the source unchanged. *)
Theorem Optional_copy_spec this src raw os (s : state T) :
  src ≠ this →
  opts s !! this = Some raw →
  m_Value raw = None →
  opts s !! src = Some os →
  invariant os →
  match m_Value os with
  | None =>
      Optional_copy this src s =
        Ret tt (mkState (<[this := empty_optional]> (opts s)) (objs s)
                  (log s))
  | Some x =>
      match copy_ctor x with
      | Some y =>
          Optional_copy this src s =
            Ret tt (mkState (<[this := present_optional y]> (opts s))
                      (objs s)
                      (log s ++ [Accessed src; Constructed this]))
      | None =>
          ∃ s', Optional_copy this src s = Throw s' ∧
                opts s' !! src = Some os
      end
  end.
Proof.
  intros Hne E Hraw Es Is.
  rewrite (Optional_copy_outcome _ _ raw os) by done.
  destruct (m_Value os) as [x|]; [|done].
  destruct (copy_ctor x); [done|].
  eexists. split; [done|]. cbn. by rewrite lookup_insert_ne.
Qed.

(** X4: the move constructor from a container other than itself: an empty
    source gives an empty container; a present source gives a container
    present with what [T]'s move constructor built, and the source present
    with what it left behind. *)
Theorem Optional_move_spec this src raw os (s : state T) :
  src ≠ this →
  opts s !! this = Some raw →
  m_Value raw = None →
  opts s !! src = Some os →
  invariant os →
  match m_Value os with
  | None =>
      Optional_move this src s =
        Ret tt (mkState (<[this := empty_optional]> (opts s)) (objs s)
                  (log s))
  | Some x =>
      match (move_ctor x).1 with
      | Some y =>
          Optional_move this src s =
            Ret tt (mkState (<[this := present_optional y]>
                               (<[src := present_optional (move_ctor x).2]>
                                  (opts s)))
                      (objs s)
                      (log s ++ [Accessed src; Constructed this]))
      | None => ∃ s', Optional_move this src s = Throw s'
      end
  end.
Proof.
  intros Hne E Hraw Es Is.
  rewrite (Optional_move_outcome _ _ raw os) by done.
  destruct (m_Value os) as [x|]; [|done].
  destruct (move_ctor x).1; [done|]. by eexists.
Qed.

(** ** Assignment from a container *)

(** X5: copy assignment from a different container, when it returns: the
    destination's payload, if any, is destroyed first; an empty source
    leaves the destination empty; a present source leaves it present with
    the copy.  The source is unchanged, also when the copy throws. *)
Theorem operator_assign_copy_spec this src o os (s : state T) :
  src ≠ this →
  opts s !! this = Some o →
  invariant o →
  opts s !! src = Some os →
  invariant os →
  match m_Value os with
  | None =>
      operator_assign_copy this src s =
        Ret this (mkState (<[this := empty_optional]> (opts s)) (objs s)
                    (log s ++ reset_events this o))
  | Some x =>
      match copy_ctor x with
      | Some y =>
          operator_assign_copy this src s =
            Ret this (mkState (<[this := present_optional y]> (opts s))
                        (objs s)
                        (log s ++ reset_events this o
                           ++ [Accessed src; Constructed this]))
      | None =>
          ∃ s', operator_assign_copy this src s = Throw s' ∧
                opts s' !! src = Some os
      end
  end.
Proof.
  intros Hne E I Es Is.
  rewrite (operator_assign_copy_outcome _ _ o os) by done.
  destruct (m_Value os) as [x|]; [|done].
  destruct (copy_ctor x); [done|].
  eexists. split; [done|]. cbn. by rewrite lookup_insert_ne.
Qed.

(** X6: move assignment from a different container, when it returns: the
    destination's payload, if any, is destroyed first; an empty source
    leaves the destination empty; a present source leaves it present with
    what [T]'s move constructor built, and the source present with what it
    left behind. *)
Theorem operator_assign_move_spec this src o os (s : state T) :
  src ≠ this →
  opts s !! this = Some o →
  invariant o →
  opts s !! src = Some os →
  invariant os →
  match m_Value os with
  | None =>
      operator_assign_move this src s =
        Ret this (mkState (<[this := empty_optional]> (opts s)) (objs s)
                    (log s ++ reset_events this o))
  | Some x =>
      match (move_ctor x).1 with
      | Some y =>
          operator_assign_move this src s =
            Ret this (mkState (<[this := present_optional y]>
                                 (<[src := present_optional (move_ctor x).2]>
                                    (opts s)))
                        (objs s)
                        (log s ++ reset_events this o
                           ++ [Accessed src; Constructed this]))
      | None => ∃ s', operator_assign_move this src s = Throw s'
      end
  end.
Proof.
  intros Hne E I Es Is.
  rewrite (operator_assign_move_outcome _ _ o os) by done.
  destruct (m_Value os) as [x|]; [|done].
  destruct (move_ctor x).1; [done|]. by eexists.
Qed.

(** ** What a call touches, and what it constructs and destroys *)

Lemma balance_app a l1 l2 :
  balance a (l1 ++ l2) = (balance a l1 + balance a l2)%Z.
Proof.
  unfold balance. induction l1 as [|e l1 IH]; cbn; [done|].
  rewrite IH. lia.
Qed.

Lemma balance_reset_same this (o : Optional T) :
  invariant o → balance this (reset_events this o) = (- live_count o)%Z.
Proof.
  intros [->|[x ->]]%invariant_cases; cbn; [done|].
  by rewrite decide_True.
Qed.

Lemma balance_reset_other a this (o : Optional T) :
  a ≠ this → balance a (reset_events this o) = 0%Z.
Proof.
  intros Hne. unfold reset_events. destruct (m_HasValue o); cbn; [|done].
  by rewrite decide_False.
Qed.

Lemma balance_read a r : balance a (read_events r) = 0%Z.
Proof. by destruct r. Qed.

Lemma balance_constructed a this :
  balance a [Constructed this] = if decide (this = a) then 1%Z else 0%Z.
Proof. cbn. case_decide; lia. Qed.

Lemma balance_accessed a b l : balance a (Accessed b :: l) = balance a l.
Proof. done. Qed.

Lemma live_account this (o0 o1 : Optional T) evs (s s' : state T) :
  opts s !! this = Some o0 →
  opts s' !! this = Some o1 →
  (∀ a, a ≠ this → live_count <$> opts s' !! a = live_count <$> opts s !! a) →
  balance this evs = (live_count o1 - live_count o0)%Z →
  (∀ a, a ≠ this → balance a evs = 0%Z) →
  (∀ a, is_Some (opts s' !! a) ↔ is_Some (opts s !! a)) ∧
  ∀ a o o', opts s !! a = Some o → opts s' !! a = Some o' →
    balance a evs = (live_count o' - live_count o)%Z.
Proof.
  intros E0 E1 Hothers Hthis Hrest. split.
  - intros a. destruct (decide (a = this)) as [->|Hne].
    + rewrite E0, E1. by split; eexists.
    + rewrite <- !fmap_is_Some with (f := live_count). by rewrite Hothers.
  - intros a o o' Ea Ea'. destruct (decide (a = this)) as [->|Hne].
    + by simplify_eq.
    + specialize (Hothers a Hne). rewrite Ea, Ea' in Hothers.
      cbn in Hothers. injection Hothers as ->. rewrite Hrest by done. lia.
Qed.

Lemma effects_noop W (s : state T) : effects_within W s s.
Proof.
  split_and!; [done..|]. exists []. split; [by rewrite app_nil_r|].
  intros a o o' E E'. simplify_eq. cbn. lia.
Qed.

Lemma effects_single W this (o0 o1 : Optional T) evs (s : state T) :
  opts s !! this = Some o0 →
  Payload_of this ∈ W →
  balance this evs = (live_count o1 - live_count o0)%Z →
  (∀ a, a ≠ this → balance a evs = 0%Z) →
  effects_within W s
    (mkState (<[this := o1]> (opts s)) (objs s) (log s ++ evs)).
Proof.
  intros E HW Hthis Hrest.
  destruct (live_account this o0 o1 evs s
              (mkState (<[this := o1]> (opts s)) (objs s) (log s ++ evs)))
    as [Hdom Hbal]; try done.
  { apply lookup_insert_eq. }
  { intros a Ha. cbn. by rewrite lookup_insert_ne. }
  split_and!; [|done|done|by exists evs].
  cbn. intros a Ha. rewrite lookup_insert_ne; [done|]. by intros ->.
Qed.

Lemma effects_move W this src (o0 o1 : Optional T) x r evs (s : state T) :
  src ≠ this →
  opts s !! this = Some o0 →
  opts s !! src = Some (present_optional x) →
  Payload_of this ∈ W →
  Payload_of src ∈ W →
  balance this evs = (live_count o1 - live_count o0)%Z →
  (∀ a, a ≠ this → balance a evs = 0%Z) →
  effects_within W s
    (mkState (<[this := o1]> (<[src := present_optional r]> (opts s)))
       (objs s) (log s ++ evs)).
Proof.
  intros Hne E Es HW HWs Hthis Hrest.
  destruct (live_account this o0 o1 evs s
              (mkState (<[this := o1]>
                          (<[src := present_optional r]> (opts s)))
                 (objs s) (log s ++ evs)))
    as [Hdom Hbal]; try done.
  { apply lookup_insert_eq. }
  { intros a Ha. cbn. rewrite lookup_insert_ne by done.
    destruct (decide (a = src)) as [->|].
    - by rewrite lookup_insert_eq, Es.
    - by rewrite lookup_insert_ne. }
  split_and!; [|done|done|by exists evs].
  cbn. intros a Ha. rewrite !lookup_insert_ne; [done|by intros ->..].
Qed.

Ltac bal :=
  intros;
  rewrite ?balance_app, ?balance_read, ?balance_accessed,
    ?balance_constructed;
  rewrite ?decide_True, ?decide_False by done;
  rewrite ?balance_reset_same, ?balance_reset_other by done;
  cbn; lia.

(** ** What a call leaves alone *)

Lemma frame_refl W (s : state T) : frame_within W s s.
Proof. done. Qed.

Lemma frame_trans W (s s1 s2 : state T) :
  frame_within W s s1 → frame_within W s1 s2 → frame_within W s s2.
Proof.
  intros (F1 & G1 & D1) (F2 & G2 & D2). split_and!.
  - intros a Ha. by rewrite F2, F1.
  - intros p Hp. by rewrite G2, G1.
  - intros a. by rewrite D2, D1.
Qed.

Lemma frame_weaken W W' (s s' : state T) :
  frame_within W s s' → W ⊆ W' → frame_within W' s s'.
Proof.
  intros (F & G & D) Hsub. split_and!; [| |done].
  - intros a Ha. apply F. intros ?. by apply Ha, Hsub.
  - intros p Hp. apply G. intros ?. by apply Hp, Hsub.
Qed.

Lemma frame_log W (s : state T) l :
  frame_within W s (mkState (opts s) (objs s) l).
Proof. done. Qed.

Lemma frame_update W this (o o' : Optional T) (s : state T) l :
  opts s !! this = Some o →
  Payload_of this ∈ W →
  frame_within W s (mkState (<[this := o']> (opts s)) (objs s) l).
Proof.
  intros E HW. split_and!; cbn; [|done|].
  - intros a Ha. rewrite lookup_insert_ne; [done|]. by intros ->.
  - intros a. destruct (decide (a = this)) as [->|].
    + rewrite lookup_insert_eq, E. by split; eexists.
    + by rewrite lookup_insert_ne.
Qed.

Lemma touches_ret {A} W (a : A) : touches (T:=T) W (mret a).
Proof. intros s s' [= <-]. apply frame_refl. Qed.

Lemma touches_bind {A B} W (m : M T A) (k : A → M T B) :
  touches W m → (∀ a, touches W (k a)) → touches W (m ≫= k).
Proof.
  intros Hm Hk s s'. unfold mbind, M_bind.
  specialize (Hm s). destruct (m s) as [a s1|s1| |]; cbn; try done.
  - intros Hfin. eapply frame_trans; [by apply Hm|by eapply Hk].
  - intros [= <-]. by apply Hm.
Qed.

Lemma touches_weaken {A} W W' (m : M T A) :
  touches W m → W ⊆ W' → touches W' m.
Proof. intros Hm Hsub s s' Hfin. eapply frame_weaken; [by apply Hm|done]. Qed.

Lemma touches_load_flag W this : touches (T:=T) W (load_flag this).
Proof.
  intros s s'. unfold load_flag. exec.
  destruct (opts s !! this); cbn; [|done]. intros [= <-]. apply frame_refl.
Qed.

Lemma touches_read_ref W r : touches (T:=T) W (read_ref r).
Proof.
  intros s s'. destruct r as [a|p]; cbn.
  - unfold read_bytes. exec.
    destruct (opts s !! a) as [[[x|] b]|]; cbn; try done.
    intros [= <-]. apply frame_log.
  - destruct (objs s !! p); cbn; [|done]. intros [= <-]. apply frame_refl.
Qed.

Lemma touches_store_flag W this b :
  Payload_of this ∈ W → touches (T:=T) W (store_flag this b).
Proof.
  intros HW s s'. unfold store_flag. exec.
  destruct (opts s !! this) as [o|] eqn:E; cbn; [|done].
  intros [= <-]. by eapply frame_update.
Qed.

Lemma touches_placement_new W this r :
  Payload_of this ∈ W → touches (T:=T) W (placement_new this r).
Proof.
  intros HW s s'. unfold placement_new. destruct r as [y|]; exec.
  - destruct (opts s !! this) as [o|] eqn:E; cbn; [|done].
    intros [= <-]. by eapply frame_update.
  - intros [= <-]. apply frame_refl.
Qed.

Lemma touches_destroy W this :
  Payload_of this ∈ W → touches (T:=T) W (destroy this).
Proof.
  intros HW s s'. unfold destroy. exec.
  destruct (opts s !! this) as [[[x|] b]|] eqn:E; cbn; try done.
  intros [= <-]. by eapply frame_update.
Qed.

Lemma touches_write_ref W r x :
  r ∈ W → touches (T:=T) W (write_ref r x).
Proof.
  intros HW s s'. destruct r as [a|p]; cbn.
  - unfold write_bytes. exec.
    destruct (opts s !! a) as [o|] eqn:E; cbn; [|done].
    intros [= <-]. by eapply frame_update.
  - destruct (objs s !! p) as [y|] eqn:E; cbn; [|done].
    intros [= <-]. split_and!; cbn; [done| |done].
    intros p' Hp'. rewrite lookup_insert_ne; [done|]. by intros ->.
Qed.

Lemma touches_Reset W this :
  Payload_of this ∈ W → touches (T:=T) W (Reset this).
Proof.
  intros HW. unfold Reset. apply touches_bind; [apply touches_load_flag|].
  intros []; [|apply touches_ret].
  apply touches_bind; [by apply touches_destroy|].
  intros _. by apply touches_store_flag.
Qed.

Lemma touches_construct_copy W this Value :
  Payload_of this ∈ W → touches W (construct_copy this Value).
Proof.
  intros HW. unfold construct_copy.
  apply touches_bind; [apply touches_read_ref|].
  intros x. by apply touches_placement_new.
Qed.

Lemma touches_construct_move W this Value :
  Payload_of this ∈ W → Value ∈ W → touches W (construct_move this Value).
Proof.
  intros HW HV. unfold construct_move.
  apply touches_bind; [apply touches_read_ref|]. intros x.
  apply touches_bind; [by apply touches_write_ref|]. intros _.
  by apply touches_placement_new.
Qed.

Ltac touch :=
  repeat first
    [ apply touches_ret
    | apply touches_load_flag
    | apply touches_Reset; set_solver
    | apply touches_store_flag; set_solver
    | apply touches_placement_new; set_solver
    | apply touches_construct_copy; set_solver
    | apply touches_construct_move; set_solver
    | apply touches_bind
    | lazymatch goal with
      | |- ∀ _ : bool, touches _ _ => intros []; cbn beta iota
      | |- ∀ _, touches _ _ => intros ?; cbn beta iota
      end
    | case_decide ].

Lemma run_call_frame (c : call Args) :
  touches (T:=T) (written c) (run_call c).
Proof.
  destruct c as [this|this args|this src|this src|this Value|this Value];
    cbn [run_call written];
    unfold Emplace, operator_assign_copy, operator_assign_move,
      operator_assign_lvalue, operator_assign_rvalue.
  all: touch.
Qed.


Lemma run_calls_catching (cs : list (call Args)) (s s' : state T) :
  run_calls cs s = Ret tt s' → run_catching cs s = Some s'.
Proof.
  revert s. induction cs as [|c cs IH]; intros s; cbn.
  - by intros [= <-].
  - exec. destruct (run_call c s) as [[] s1| | |]; cbn; try done. apply IH.
Qed.


(** The source of a move from another container's payload stays as its
    flag says, with what the move left in it. *)
Lemma moved_from_container this a (s s' : state T) :
  a ≠ this →
  final_state (operator_assign_rvalue this (Payload_of a) s) = Some s' →
  ∃ v b, opts s !! a = Some (mkOptional (Some v) b) ∧
         opts s' !! a = Some (mkOptional (Some (move_ctor v).2) b).
Proof.
  intros Hne. unfold operator_assign_rvalue.
  rewrite decide_True by congruence.
  unfold Reset, load_flag, destroy, store_flag, construct_move, read_ref,
    write_ref, read_bytes, write_bytes, placement_new.
  destruct (opts s !! this) as [[[x|] []]|] eqn:E;
    destruct (opts s !! a) as [[[v|] b]|] eqn:Ea; exec; try done.
  all: destruct (move_ctor v).1 as [y|]; exec; intros [= <-]; cbn.
  all: eexists _, _; (split; [reflexivity|]).
  all: by rewrite ?lookup_insert_ne, ?lookup_insert_eq by done.
Qed.

Lemma value_call_keeps_invariant (c : call Args) (s s' : state T) a o :
  from_value c = true →
  final_state (run_call c s) = Some s' →
  opts s !! a = Some o →
  invariant o →
  ∃ o', opts s' !! a = Some o' ∧ invariant o'.
Proof.
  intros Hv Hfin Ea I.
  destruct (decide (Payload_of a ∈ written c)) as [Hin|Hout]; cycle 1.
  { destruct (run_call_frame c s s' Hfin) as (F & _). exists o.
    by rewrite F. }
  destruct c as [this|this args|this src|this src|this Value|this Value];
    try done; cbn [run_call written] in *.
  - apply list_elem_of_singleton in Hin as [= ->].
    rewrite (Reset_invariant _ o) in Hfin by done. injection Hfin as <-.
    exists empty_optional. cbn. by rewrite lookup_insert_eq.
  - apply list_elem_of_singleton in Hin as [= ->].
    rewrite (Emplace_outcome _ o) in Hfin by done.
    destruct (args_ctor args) as [y|]; injection Hfin as <-; cbn;
      rewrite lookup_insert_eq; by eexists.
  - apply list_elem_of_singleton in Hin as [= ->]. revert Hfin. exec.
    destruct (decide (Value = Payload_of this)) as [->|Hne].
    { unfold operator_assign_lvalue. rewrite decide_False by naive_solver.
      exec. intros [= <-]. by exists o. }
    destruct (target Value s) as [v|] eqn:Ev; cycle 1.
    { unfold operator_assign_lvalue. rewrite decide_True by done. exec.
      rewrite (Reset_invariant _ o) by done. unfold construct_copy. exec.
      by rewrite read_ref_no_target by (by rewrite target_insert_ne). }
    rewrite (operator_assign_lvalue_outcome _ o _ v) by done.
    destruct (copy_ctor v) as [y|]; intros [= <-]; cbn;
      rewrite lookup_insert_eq; by eexists.
  - revert Hfin. exec.
    destruct (decide (Value = Payload_of this)) as [->|Hne].
    { unfold operator_assign_rvalue. rewrite decide_False by naive_solver.
      exec. intros [= <-]. by exists o. }
    destruct (decide (a = this)) as [->|Ha].
    + destruct (target Value s) as [v|] eqn:Ev; cycle 1.
      { unfold operator_assign_rvalue. rewrite decide_True by done. exec.
        rewrite (Reset_invariant _ o) by done. unfold construct_move. exec.
        by rewrite read_ref_no_target by (by rewrite target_insert_ne). }
      destruct (operator_assign_rvalue_post _ o _ v s Ea I Ev Hne)
        as (s1 & Hout & _).
      destruct (move_ctor v).1; destruct Hout as (-> & E1 & _);
        intros [= <-]; by eexists.
    + apply elem_of_cons in Hin as [[= ?]|Hin%list_elem_of_singleton];
        [done|subst Value].
      intros Hfin.
      assert (Hfin' : final_state (operator_assign_rvalue this (Payload_of a) s)
                      = Some s').
      { by destruct (operator_assign_rvalue this (Payload_of a) s). }
      destruct (moved_from_container this a s s' Ha Hfin')
        as (v & b & E0 & E1).
      rewrite E0 in Ea. injection Ea as <-. eexists. split; [done|].
      unfold invariant, live in *. done.
Qed.

(** X15: [Reset], [Emplace] and the assignments from a [T] keep the
    invariant of every container, one by one: over any sequence of such
    calls, each returning or throwing, run from any store, a container whose
    flag was set exactly when it held a live payload is so at the end,
    whether it was a destination, the source of a move or neither, and
    whatever the other containers hold. *)
Theorem value_calls_keep_invariant (cs : list (call Args)) (s s' : state T)
    a o :
  forallb from_value cs = true →
  run_catching cs s = Some s' →
  opts s !! a = Some o →
  invariant o →
  ∃ o', opts s' !! a = Some o' ∧ invariant o'.
Proof.
  revert s o. induction cs as [|c cs IH]; intros s o Hv; cbn [run_catching].
  - intros [= <-] E I. by exists o.
  - cbn in Hv. apply andb_prop in Hv as [Hc Hv].
    destruct (final_state (run_call c s)) as [s1|] eqn:E1; cbn; [|done].
    intros Hrest E I.
    destruct (value_call_keeps_invariant c s s1 a o Hc E1 E I)
      as (o1 & Eo1 & I1).
    by eapply IH.
Qed.


Lemma effects_trans W1 W2 (s s1 s2 : state T) :
  effects_within W1 s s1 →
  effects_within W2 s1 s2 →
  effects_within (W1 ++ W2) s s2.
Proof.
  intros (F1 & G1 & D1 & evs1 & L1 & B1) (F2 & G2 & D2 & evs2 & L2 & B2).
  split_and!.
  - intros a [? ?]%not_elem_of_app. by rewrite F2, F1.
  - intros p [? ?]%not_elem_of_app. by rewrite G2, G1.
  - intros a. by rewrite D2, D1.
  - exists (evs1 ++ evs2). split; [by rewrite L2, L1, app_assoc|].
    intros a o o2 E E2.
    destruct (proj2 (D1 a)) as [o1 E1]; [by eexists|].
    rewrite balance_app, (B1 a o o1), (B2 a o1 o2) by done. lia.
Qed.

Lemma weak_lookup this (o : Optional T) (s : state T) :
  no_unflagged_payload s →
  opts s !! this = Some o →
  invariant o ∨ o = flagged_without_payload.
Proof.
  intros Hs E. pose proof (map_Forall_lookup_1 _ _ _ _ Hs E) as H.
  destruct o as [[x|] []]; cbn in H; unfold invariant, live; cbn; auto.
Qed.

Lemma weak_insert this (o : Optional T) (s : state T) ob l :
  no_unflagged_payload s →
  (live o = true → m_HasValue o = true) →
  no_unflagged_payload (mkState (<[this := o]> (opts s)) ob l).
Proof. intros Hs Ho. by apply map_Forall_insert_2. Qed.

Lemma weak_ok_of_invariant (o : Optional T) :
  invariant o → live o = true → m_HasValue o = true.
Proof. unfold invariant. congruence. Qed.

Ltac single o1 evs :=
  intros [= <-]; split;
  [ eapply (effects_single _ _ _ o1 evs); [done|set_solver|bal..]
  | apply weak_insert; [done|by cbn] ].

Lemma run_call_effects_weak (c : call Args) (s s' : state T) :
  no_unflagged_payload s →
  final_state (run_call c s) = Some s' →
  effects_within (written c) s s' ∧ no_unflagged_payload s'.
Proof.
  intros Hs. destruct c as [this|this args|this src|this src|this Value
                            |this Value]; cbn [run_call written].
  - destruct (opts s !! this) as [o|] eqn:E; [|by rewrite Reset_missing].
    destruct (weak_lookup _ _ _ Hs E) as [I| ->];
      [|by rewrite Reset_flag_without_payload].
    rewrite (Reset_invariant _ o) by done.
    single (empty_optional (T:=T)) (reset_events this o).
  - destruct (opts s !! this) as [o|] eqn:E; cycle 1.
    { unfold Emplace. exec. by rewrite Reset_missing. }
    destruct (weak_lookup _ _ _ Hs E) as [I| ->]; cycle 1.
    { unfold Emplace. exec. by rewrite Reset_flag_without_payload. }
    rewrite (Emplace_outcome _ o) by done.
    destruct (args_ctor args) as [y|].
    + single (present_optional y) (reset_events this o ++ [Constructed this]).
    + single (empty_optional (T:=T)) (reset_events this o).
  - exec. destruct (decide (src = this)) as [->|Hne].
    { unfold operator_assign_copy. rewrite decide_False by naive_solver.
      exec. intros [= <-]. split; [apply effects_noop|done]. }
    destruct (opts s !! this) as [o|] eqn:E; cycle 1.
    { unfold operator_assign_copy. rewrite decide_True by done. exec.
      by rewrite Reset_missing. }
    destruct (weak_lookup _ _ _ Hs E) as [I| ->]; cycle 1.
    { unfold operator_assign_copy. rewrite decide_True by done. exec.
      by rewrite Reset_flag_without_payload. }
    destruct (opts s !! src) as [os|] eqn:Es; cycle 1.
    { unfold operator_assign_copy. rewrite decide_True by done. exec.
      rewrite (Reset_invariant _ o) by done. unfold load_flag. by exec. }
    destruct (weak_lookup _ _ _ Hs Es) as [Is| ->]; cycle 1.
    { unfold operator_assign_copy. rewrite decide_True by done. exec.
      rewrite (Reset_invariant _ o) by done.
      unfold load_flag, store_flag, construct_copy, read_ref, read_bytes,
        flagged_without_payload in *.
      by exec. }
    rewrite (operator_assign_copy_outcome _ _ o os) by done.
    destruct (m_Value os) as [x|]; [destruct (copy_ctor x) as [y|]|].
    + single (present_optional y)
        (reset_events this o ++ [Accessed src; Constructed this]).
    + single (flagged_without_payload (T:=T))
        (reset_events this o ++ [Accessed src]).
    + single (empty_optional (T:=T)) (reset_events this o).
  - exec. destruct (decide (src = this)) as [->|Hne].
    { unfold operator_assign_move. rewrite decide_False by naive_solver.
      exec. intros [= <-]. split; [apply effects_noop|done]. }
    destruct (opts s !! this) as [o|] eqn:E; cycle 1.
    { unfold operator_assign_move. rewrite decide_True by done. exec.
      by rewrite Reset_missing. }
    destruct (weak_lookup _ _ _ Hs E) as [I| ->]; cycle 1.
    { unfold operator_assign_move. rewrite decide_True by done. exec.
      by rewrite Reset_flag_without_payload. }
    destruct (opts s !! src) as [os|] eqn:Es; cycle 1.
    { unfold operator_assign_move. rewrite decide_True by done. exec.
      rewrite (Reset_invariant _ o) by done. unfold load_flag. by exec. }
    destruct (weak_lookup _ _ _ Hs Es) as [Is| ->]; cycle 1.
    { unfold operator_assign_move. rewrite decide_True by done. exec.
      rewrite (Reset_invariant _ o) by done.
      unfold load_flag, store_flag, construct_move, read_ref, read_bytes,
        flagged_without_payload in *.
      by exec. }
    rewrite (operator_assign_move_outcome _ _ o os) by done.
    destruct (invariant_cases _ Is) as [->|[x ->]];
      cbn [m_Value present_optional empty_optional].
    + single (empty_optional (T:=T)) (reset_events this o).
    + destruct (move_ctor x).1 as [y|]; intros [= <-]; split.
      * apply (effects_move _ this src o (present_optional y) x _
                 (reset_events this o ++ [Accessed src; Constructed this]));
          [done|done|done|set_solver|set_solver|bal..].
      * apply map_Forall_insert_2; [done|]. by apply map_Forall_insert_2.
      * apply (effects_move _ this src o flagged_without_payload x _
                 (reset_events this o ++ [Accessed src]));
          [done|done|done|set_solver|set_solver|bal..].
      * apply map_Forall_insert_2; [done|]. by apply map_Forall_insert_2.
  - exec. destruct (decide (Value = Payload_of this)) as [->|Hne].
    { unfold operator_assign_lvalue. rewrite decide_False by naive_solver.
      exec. intros [= <-]. split; [apply effects_noop|done]. }
    destruct (opts s !! this) as [o|] eqn:E; cycle 1.
    { unfold operator_assign_lvalue. rewrite decide_True by done. exec.
      by rewrite Reset_missing. }
    destruct (weak_lookup _ _ _ Hs E) as [I| ->]; cycle 1.
    { unfold operator_assign_lvalue. rewrite decide_True by done. exec.
      by rewrite Reset_flag_without_payload. }
    destruct (target Value s) as [v|] eqn:Ev; cycle 1.
    { unfold operator_assign_lvalue. rewrite decide_True by done. exec.
      rewrite (Reset_invariant _ o) by done. unfold construct_copy. exec.
      by rewrite read_ref_no_target by (by rewrite target_insert_ne). }
    rewrite (operator_assign_lvalue_outcome _ o _ v) by done.
    destruct (copy_ctor v) as [y|].
    + single (present_optional y)
        (reset_events this o ++ read_events Value ++ [Constructed this]).
    + single (empty_optional (T:=T))
        (reset_events this o ++ read_events Value).
  - exec. destruct (decide (Value = Payload_of this)) as [->|Hne].
    { unfold operator_assign_rvalue. rewrite decide_False by naive_solver.
      exec. intros [= <-]. split; [apply effects_noop|done]. }
    destruct (opts s !! this) as [o|] eqn:E; cycle 1.
    { unfold operator_assign_rvalue. rewrite decide_True by done. exec.
      by rewrite Reset_missing. }
    destruct (weak_lookup _ _ _ Hs E) as [I| ->]; cycle 1.
    { unfold operator_assign_rvalue. rewrite decide_True by done. exec.
      by rewrite Reset_flag_without_payload. }
    destruct (target Value s) as [v|] eqn:Ev; cycle 1.
    { unfold operator_assign_rvalue. rewrite decide_True by done. exec.
      rewrite (Reset_invariant _ o) by done. unfold construct_move. exec.
      by rewrite read_ref_no_target by (by rewrite target_insert_ne). }
    destruct (operator_assign_rvalue_post _ o _ v s E I Ev Hne)
      as (s1 & Hout & Ht & Hframe & Hflags & Hobjs).
    assert (∃ o1 evs, final_state (operator_assign_rvalue this Value s)
                      = Some s1 ∧
              opts s1 !! this = Some o1 ∧ invariant o1 ∧
              log s1 = log s ++ evs ∧
              balance this evs = (live_count o1 - live_count o)%Z ∧
              ∀ a, a ≠ this → balance a evs = 0%Z)
      as (o1 & evs & Hfin & E1 & I1 & Hlog & Hb & Hb0).
    { destruct (move_ctor v).1 as [y|]; destruct Hout as (Hr & E1 & Hlog);
        do 2 eexists; (split_and!; [by rewrite Hr|done|done|done|bal|bal]). }
    assert (Hsrc : ∀ a, a ≠ this → Payload_of a = Value →
              ∃ oa oa', opts s !! a = Some oa ∧ opts s1 !! a = Some oa' ∧
                        live oa = true ∧ live oa' = true ∧
                        m_HasValue oa' = m_HasValue oa).
    { intros a Ha <-. cbn in Ht, Ev. specialize (Hflags a Ha).
      destruct (opts s1 !! a) as [oa'|]; [|done].
      destruct (opts s !! a) as [oa|]; [|done]. cbn in *.
      exists oa, oa'. unfold live. rewrite Ht, Ev. split_and!; try done.
      congruence. }
    destruct (operator_assign_rvalue this Value s) as [r s2|s2| |];
      cbn in Hfin |- *; try done; injection Hfin as ->; intros [= <-].
    all: destruct (live_account this o o1 evs s s1) as [Hdom Hbal];
      try done.
    1,3: intros a Ha; destruct (decide (Payload_of a = Value)) as [Hv|Hv];
      [|by rewrite Hframe];
      destruct (Hsrc a Ha Hv) as (oa & oa' & -> & -> & L & L' & _); cbn;
      unfold live_count; by rewrite L, L'.
    all: split; [split_and!; [|..|by exists evs]; try done|].
    all: try (intros a [? [? _]%not_elem_of_cons]%not_elem_of_cons;
              apply Hframe; congruence).
    all: try (intros p [? [? _]%not_elem_of_cons]%not_elem_of_cons;
              by apply Hobjs).
    all: apply map_Forall_lookup_2; intros a oa' Ea' L';
      destruct (decide (a = this)) as [->|Ha];
      [rewrite E1 in Ea'; injection Ea' as <-; by apply weak_ok_of_invariant|];
      destruct (decide (Payload_of a = Value)) as [Hv|Hv];
      [destruct (Hsrc a Ha Hv) as (oa & oa2 & Ea & Ea2 & L & _ & Hf);
       rewrite Ea2 in Ea'; injection Ea' as <-; rewrite Hf;
       exact (map_Forall_lookup_1 _ _ _ _ Hs Ea L)
      |rewrite Hframe in Ea' by done;
       exact (map_Forall_lookup_1 _ _ _ _ Hs Ea' L')].
Qed.


Lemma run_catching_effects (cs : list (call Args)) (s s' : state T) :
  no_unflagged_payload s →
  run_catching cs s = Some s' →
  effects_within (program_writes cs) s s' ∧ no_unflagged_payload s'.
Proof.
  revert s. induction cs as [|c cs IH]; intros s Hs; cbn [run_catching].
  - intros [= <-]. split; [apply effects_noop|done].
  - destruct (final_state (run_call c s)) as [s1|] eqn:E1; cbn; [|done].
    intros Hrest.
    destruct (run_call_effects_weak c s s1 Hs E1) as [Hc Hs1].
    destruct (IH s1 Hs1 Hrest) as [Hcs Hs'].
    split; [|done]. by apply (effects_trans (written c) _ s s1 s').
Qed.

(** X17: a client calls [Reset], [Emplace] and the assignment operators in
    any order, catching what they throw, from a store in which no container
    holds a live payload under a clear flag.  If no call is undefined the
    final store is such a store again, the log has only grown, and for
    every container the constructions minus the destructions logged in its
    bytes are the change in the number of live payloads there. *)
Theorem program_balances_lifetimes (cs : list (call Args))
    (s s' : state T) :
  no_unflagged_payload s →
  run_catching cs s = Some s' →
  no_unflagged_payload s' ∧
  ∃ evs, log s' = log s ++ evs ∧
    ∀ a o o', opts s !! a = Some o → opts s' !! a = Some o' →
      balance a evs = (live_count o' - live_count o)%Z.
Proof.
  intros Hs Hrun.
  destruct (run_catching_effects cs s s' Hs Hrun) as [(_ & _ & _ & B) Hs'].
  done.
Qed.

(** ** The flag set over bytes without an object *)

Lemma mutators_on_flag_without_payload this (s : state T) :
  opts s !! this = Some flagged_without_payload →
  Reset this s = Undefined ∧
  Optional_dtor this s = Undefined ∧
  (∀ args, Emplace this args s = Undefined) ∧
  (∀ src, src ≠ this → operator_assign_copy this src s = Undefined) ∧
  (∀ src, src ≠ this → operator_assign_move this src s = Undefined) ∧
  (∀ Value, Value ≠ Payload_of this →
            operator_assign_lvalue this Value s = Undefined) ∧
  (∀ Value, Value ≠ Payload_of this →
            operator_assign_rvalue this Value s = Undefined).
Proof.
  intros E. pose proof (Reset_flag_without_payload this s E) as R.
  split_and!; try done.
  - intros args. unfold Emplace. exec. by rewrite R.
  - intros src Hne. unfold operator_assign_copy.
    rewrite decide_True by done. exec. by rewrite R.
  - intros src Hne. unfold operator_assign_move.
    rewrite decide_True by done. exec. by rewrite R.
  - intros Value Hne. unfold operator_assign_lvalue.
    rewrite decide_True by done. exec. by rewrite R.
  - intros Value Hne. unfold operator_assign_rvalue.
    rewrite decide_True by done. exec. by rewrite R.
Qed.

(** X20: a container left with its flag set over bytes without an
    object.  [HasValue] returns true and [GetValue] passes its assertion,
    but using the reference it returns is undefined; so are [Reset], the
    destructor, [Emplace] and every assignment to the container from
    something else. *)
Theorem calls_on_flag_without_payload this (s : state T) :
  opts s !! this = Some flagged_without_payload →
  HasValue this s = Ret true s ∧
  GetValue NDEBUG this s = Ret (Payload_of this) s ∧
  value_of (GetValue NDEBUG this) s = Undefined ∧
  Reset this s = Undefined ∧
  Optional_dtor this s = Undefined ∧
  (∀ args, Emplace this args s = Undefined) ∧
  (∀ src, src ≠ this → operator_assign_copy this src s = Undefined) ∧
  (∀ src, src ≠ this → operator_assign_move this src s = Undefined) ∧
  (∀ Value, Value ≠ Payload_of this →
            operator_assign_lvalue this Value s = Undefined) ∧
  (∀ Value, Value ≠ Payload_of this →
            operator_assign_rvalue this Value s = Undefined).
Proof.
  intros E. pose proof (mutators_on_flag_without_payload this s E) as H.
  unfold flagged_without_payload in E. split_and!; [| |  |apply H..].
  - unfold HasValue, load_flag. by exec.
  - unfold GetValue, KEEL_ASSERT, HasValue, load_flag.
    destruct NDEBUG; by exec.
  - unfold value_of, GetValue, KEEL_ASSERT, HasValue, load_flag, read_ref,
      read_bytes.
    destruct NDEBUG; by exec.
Qed.





(** X18: [Reset] followed by [Emplace] is [Emplace]: same outcome, same store,
    same log. *)
Theorem Emplace_absorbs_Reset this o args (s : state T) :
  opts s !! this = Some o →
  invariant o →
  (Reset this;; Emplace this args) s = Emplace this args s.
Proof.
  intros E I. exec. rewrite (Reset_invariant _ o) by done.
  rewrite (Emplace_outcome _ o _ s) by done.
  rewrite (Emplace_outcome _ empty_optional _ (mkState _ _ _))
    by (done || apply lookup_insert_eq).
  destruct (args_ctor args); cbn;
    by rewrite ?insert_insert_eq, ?app_nil_r, <- ?app_assoc.
Qed.

(** X19: [Optional(T&&)] from a live [T] of value [v].  When [T]'s move
    constructor returns [y] the container is present with [y]; when it
    throws, the exception propagates and the storage is as it was.  Either
    way the source holds what the move constructor left in it. *)
Theorem Optional_from_rvalue_spec this raw Value v (s : state T) :
  opts s !! this = Some raw →
  m_Value raw = None →
  target Value s = Some v →
  ∃ s',
    match (move_ctor v).1 with
    | Some y =>
        Optional_from_rvalue this Value s = Ret tt s' ∧
        opts s' !! this = Some (present_optional y) ∧
        log s' = log s ++ read_events Value ++ [Constructed this]
    | None =>
        Optional_from_rvalue this Value s = Throw s' ∧
        opts s' !! this = Some raw ∧
        log s' = log s ++ read_events Value
    end ∧
    target Value s' = Some (move_ctor v).2.
Proof.
  intros E Hraw Ev.
  assert (Hne : Value ≠ Payload_of this).
  { intros ->. cbn in Ev. rewrite E in Ev. cbn in Ev. congruence. }
  unfold Optional_from_rvalue, construct_move. exec.
  rewrite (read_ref_target Value v) by done.
  destruct Value as [a|p]; cbn in Ev |- *.
  - assert (a ≠ this) by congruence.
    destruct (opts s !! a) as [[w b]|] eqn:Ea; cbn in Ev; [subst w|done].
    unfold write_bytes, placement_new, store_flag.
    destruct (move_ctor v).1 as [y|]; exec; eexists;
      (split; [split_and!; [reflexivity|..]|]); cbn;
      rewrite <- ?app_assoc; try done;
      by rewrite ?lookup_insert_ne, ?lookup_insert_eq by done.
  - unfold placement_new, store_flag. exec.
    destruct (move_ctor v).1 as [y|]; exec; eexists;
      (split; [split_and!; [reflexivity|..]|]); cbn;
      rewrite <- ?app_assoc, ?app_nil_r; try done;
      by rewrite ?lookup_insert_ne, ?lookup_insert_eq by done.
Qed.

End optional_more.

(** ** The further properties at concrete stores *)

Lemma int_store_ok : store_ok int_store.
Proof. apply (bool_decide_unpack _). vm_compute. exact I. Defined.

(** X1 on the raw storage at 1. *)
Lemma Optional_default_spec_witness :
  opts raw_store !! 1%N = Some (mkOptional None true) ∧
  ∃ s', Optional_default 1%N raw_store = Ret tt s' ∧
        opts s' !! 1%N = Some empty_optional ∧
        log s' = [] ∧
        HasValue 1%N s' = Ret false s'.
Proof.
  assert (E : opts raw_store !! 1%N = Some (mkOptional None true))
    by reflexivity.
  destruct (Optional_default_spec 1%N _ raw_store E eq_refl)
    as (s' & ? & ? & ? & ? & _).
  split; [exact E|]. exists s'. split_and!; assumption.
Defined.

(** X2 on [Fragile]: built from the object at 11, which holds 8, the
    container is present; built from the object at 10, which holds -1, the
    constructor throws and the storage is untouched. *)
Lemma Optional_from_lvalue_spec_witness :
  opts fragile_raw_store !! 1%N = Some (mkOptional None true) ∧
  target (Object_at 11%N) fragile_raw_store = Some 8%Z ∧
  target (Object_at 10%N) fragile_raw_store = Some (-1)%Z ∧
  Optional_from_lvalue (ops:=fragile_ops) 1%N (Object_at 10%N)
    fragile_raw_store = Throw fragile_raw_store ∧
  Optional_from_lvalue (ops:=fragile_ops) 1%N (Object_at 11%N)
    fragile_raw_store
    = Ret tt (mkState (<[1%N := present_optional 8%Z]>
                         (opts fragile_raw_store))
                (objs fragile_raw_store) [Constructed 1%N]).
Proof.
  assert (E : opts fragile_raw_store !! 1%N = Some (mkOptional None true))
    by reflexivity.
  assert (V1 : target (Object_at 11%N) fragile_raw_store = Some 8%Z)
    by reflexivity.
  assert (V2 : target (Object_at 10%N) fragile_raw_store = Some (-1)%Z)
    by reflexivity.
  split_and!; [exact E|exact V1|exact V2|..].
  - exact (Optional_from_lvalue_spec (ops:=fragile_ops) 1%N _
             (Object_at 10%N) (-1)%Z fragile_raw_store E V2).
  - exact (Optional_from_lvalue_spec (ops:=fragile_ops) 1%N _
             (Object_at 11%N) 8%Z fragile_raw_store E V1).
Defined.

(** X3 on vectors: the storage at 4 copy-constructed from the container at
    1, and from the empty container at 2. *)
Lemma Optional_copy_spec_witness :
  opts vec_raw_store !! 4%N = Some (mkOptional None true) ∧
  opts vec_raw_store !! 1%N = Some (present_optional [1; 2; 3]%Z) ∧
  opts vec_raw_store !! 2%N = Some empty_optional ∧
  Optional_copy (ops:=vec_ops) 4%N 1%N vec_raw_store
    = Ret tt (mkState (<[4%N := present_optional [1; 2; 3]%Z]>
                         (opts vec_raw_store))
                (objs vec_raw_store) [Accessed 1%N; Constructed 4%N]) ∧
  Optional_copy (ops:=vec_ops) 4%N 2%N vec_raw_store
    = Ret tt (mkState (<[4%N := empty_optional]> (opts vec_raw_store))
                (objs vec_raw_store) []).
Proof.
  assert (E4 : opts vec_raw_store !! 4%N = Some (mkOptional None true))
    by reflexivity.
  assert (E1 : opts vec_raw_store !! 1%N
               = Some (present_optional [1; 2; 3]%Z)) by reflexivity.
  assert (E2 : opts vec_raw_store !! 2%N = Some empty_optional)
    by reflexivity.
  split_and!; [exact E4|exact E1|exact E2|..].
  - refine (Optional_copy_spec (ops:=vec_ops) 4%N 1%N _ _ vec_raw_store
              _ E4 eq_refl E1 eq_refl). discriminate.
  - refine (Optional_copy_spec (ops:=vec_ops) 4%N 2%N _ _ vec_raw_store
              _ E4 eq_refl E2 eq_refl). discriminate.
Defined.

(** X4 on vectors: the storage at 4 move-constructed from the container at
    1, which is left present and without elements. *)
Lemma Optional_move_spec_witness :
  opts vec_raw_store !! 4%N = Some (mkOptional None true) ∧
  opts vec_raw_store !! 1%N = Some (present_optional [1; 2; 3]%Z) ∧
  Optional_move (ops:=vec_ops) 4%N 1%N vec_raw_store
    = Ret tt (mkState (<[4%N := present_optional [1; 2; 3]%Z]>
                         (<[1%N := present_optional []]>
                            (opts vec_raw_store)))
                (objs vec_raw_store) [Accessed 1%N; Constructed 4%N]).
Proof.
  assert (E4 : opts vec_raw_store !! 4%N = Some (mkOptional None true))
    by reflexivity.
  assert (E1 : opts vec_raw_store !! 1%N
               = Some (present_optional [1; 2; 3]%Z)) by reflexivity.
  split_and!; [exact E4|exact E1|].
  refine (Optional_move_spec (ops:=vec_ops) 4%N 1%N _ _ vec_raw_store
            _ E4 eq_refl E1 eq_refl). discriminate.
Defined.

(** X5 on vectors: the container at 3 assigned from the one at 1, and from
    the empty one at 2. *)
Lemma operator_assign_copy_spec_witness :
  opts vec_store !! 3%N = Some (present_optional [4]%Z) ∧
  opts vec_store !! 1%N = Some (present_optional [1; 2; 3]%Z) ∧
  opts vec_store !! 2%N = Some empty_optional ∧
  operator_assign_copy (ops:=vec_ops) 3%N 1%N vec_store
    = Ret 3%N (mkState (<[3%N := present_optional [1; 2; 3]%Z]>
                          (opts vec_store))
                 (objs vec_store)
                 [Destroyed 3%N; Accessed 1%N; Constructed 3%N]) ∧
  operator_assign_copy (ops:=vec_ops) 3%N 2%N vec_store
    = Ret 3%N (mkState (<[3%N := empty_optional]> (opts vec_store))
                 (objs vec_store) [Destroyed 3%N]).
Proof.
  assert (E3 : opts vec_store !! 3%N = Some (present_optional [4]%Z))
    by reflexivity.
  assert (E1 : opts vec_store !! 1%N = Some (present_optional [1; 2; 3]%Z))
    by reflexivity.
  assert (E2 : opts vec_store !! 2%N = Some empty_optional) by reflexivity.
  split_and!; [exact E3|exact E1|exact E2|..].
  - refine (operator_assign_copy_spec (ops:=vec_ops) 3%N 1%N _ _ vec_store
              _ E3 eq_refl E1 eq_refl). discriminate.
  - refine (operator_assign_copy_spec (ops:=vec_ops) 3%N 2%N _ _ vec_store
              _ E3 eq_refl E2 eq_refl). discriminate.
Defined.

(** X6 on vectors: the container at 3 move-assigned from the one at 1. *)
Lemma operator_assign_move_spec_witness :
  opts vec_store !! 3%N = Some (present_optional [4]%Z) ∧
  opts vec_store !! 1%N = Some (present_optional [1; 2; 3]%Z) ∧
  operator_assign_move (ops:=vec_ops) 3%N 1%N vec_store
    = Ret 3%N (mkState (<[3%N := present_optional [1; 2; 3]%Z]>
                          (<[1%N := present_optional []]> (opts vec_store)))
                 (objs vec_store)
                 [Destroyed 3%N; Accessed 1%N; Constructed 3%N]).
Proof.
  assert (E3 : opts vec_store !! 3%N = Some (present_optional [4]%Z))
    by reflexivity.
  assert (E1 : opts vec_store !! 1%N = Some (present_optional [1; 2; 3]%Z))
    by reflexivity.
  split_and!; [exact E3|exact E1|].
  refine (operator_assign_move_spec (ops:=vec_ops) 3%N 1%N _ _ vec_store
            _ E3 eq_refl E1 eq_refl). discriminate.
Defined.

(** X7: on [Fragile] the container at 1 is assigned the payload of the
    container at 2, whose copy throws, and is left empty; on [int] the
    container at 1 is assigned the object at 10. *)
Lemma operator_assign_lvalue_spec_witness :
  opts fragile_store !! 1%N = Some (present_optional 7%Z) ∧
  target (Payload_of 2%N) fragile_store = Some (-1)%Z ∧
  opts int_store !! 1%N = Some (present_optional 7%Z) ∧
  target (Object_at 10%N) int_store = Some 42%Z ∧
  operator_assign_lvalue (ops:=fragile_ops) 1%N (Payload_of 2%N)
    fragile_store
    = Throw (mkState (<[1%N := empty_optional]> (opts fragile_store))
               (objs fragile_store) [Destroyed 1%N; Accessed 2%N]) ∧
  operator_assign_lvalue (ops:=int_ops) 1%N (Object_at 10%N) int_store
    = Ret 1%N (mkState (<[1%N := present_optional 42%Z]> (opts int_store))
                 (objs int_store) [Destroyed 1%N; Constructed 1%N]).
Proof.
  assert (E : opts fragile_store !! 1%N = Some (present_optional 7%Z))
    by reflexivity.
  assert (V : target (Payload_of 2%N) fragile_store = Some (-1)%Z)
    by reflexivity.
  assert (E' : opts int_store !! 1%N = Some (present_optional 7%Z))
    by reflexivity.
  assert (V' : target (Object_at 10%N) int_store = Some 42%Z)
    by reflexivity.
  split_and!; [exact E|exact V|exact E'|exact V'|..].
  - refine (operator_assign_lvalue_spec (ops:=fragile_ops) 1%N _
              (Payload_of 2%N) (-1)%Z fragile_store E eq_refl V _).
    discriminate.
  - refine (operator_assign_lvalue_spec (ops:=int_ops) 1%N _
              (Object_at 10%N) 42%Z int_store E' eq_refl V' _).
    discriminate.
Defined.

(** X8 on vectors: the container at 2 is assigned the payload of the
    container at 1 by move; the container at 1 stays present, without
    elements, and the container at 3 is as it was. *)
Lemma operator_assign_rvalue_spec_witness :
  opts vec_store !! 2%N = Some empty_optional ∧
  target (Payload_of 1%N) vec_store = Some [1; 2; 3]%Z ∧
  ∃ s', operator_assign_rvalue (ops:=vec_ops) 2%N (Payload_of 1%N) vec_store
          = Ret 2%N s' ∧
        opts s' !! 2%N = Some (present_optional [1; 2; 3]%Z) ∧
        log s' = [Accessed 1%N; Constructed 2%N] ∧
        target (Payload_of 1%N) s' = Some [] ∧
        m_HasValue <$> opts s' !! 1%N = Some true ∧
        opts s' !! 3%N = opts vec_store !! 3%N.
Proof.
  assert (E : opts vec_store !! 2%N = Some empty_optional) by reflexivity.
  assert (V : target (Payload_of 1%N) vec_store = Some [1; 2; 3]%Z)
    by reflexivity.
  assert (Hne : Payload_of 1%N ≠ Payload_of 2%N) by discriminate.
  destruct (operator_assign_rvalue_spec (ops:=vec_ops) 2%N _
              (Payload_of 1%N) _ vec_store E eq_refl V Hne)
    as (s' & (Hr & Hthis & Hlog) & Ht & Hframe & Hflags & _).
  split_and!; [exact E|exact V|]. exists s'.
  split_and!; [exact Hr|exact Hthis|exact Hlog|exact Ht| |].
  - rewrite (Hflags 1%N); [reflexivity|discriminate].
  - apply Hframe; discriminate.
Defined.

(** X9 on the empty container at 2, in a checked and in an unchecked
    build. *)
Lemma GetValue_on_empty_witness :
  opts int_store !! 2%N = Some empty_optional ∧
  GetValue false 2%N int_store = Abort ∧
  GetValue true 2%N int_store = Ret (Payload_of 2%N) int_store ∧
  value_of (GetValue true 2%N) int_store = Undefined.
Proof.
  assert (E : opts int_store !! 2%N = Some empty_optional) by reflexivity.
  destruct (GetValue_on_empty false 2%N int_store E) as (G0 & _).
  destruct (GetValue_on_empty true 2%N int_store E) as (G1 & V1 & _).
  split_and!; [exact E|exact G0|exact G1|exact V1].
Defined.

(** X10 on the present container at 1 and the empty one at 2. *)
Lemma operator_ptr_spec_witness :
  opts int_store !! 1%N = Some (present_optional 7%Z) ∧
  opts int_store !! 2%N = Some empty_optional ∧
  operator_ptr 1%N int_store = Ret (Some (Payload_of 1%N)) int_store ∧
  operator_ptr 2%N int_store = Ret None int_store.
Proof.
  assert (E1 : opts int_store !! 1%N = Some (present_optional 7%Z))
    by reflexivity.
  assert (E2 : opts int_store !! 2%N = Some empty_optional) by reflexivity.
  destruct (operator_ptr_spec false 1%N _ int_store E1) as (P1 & _).
  destruct (operator_ptr_spec false 2%N _ int_store E2) as (P2 & _).
  split_and!; [exact E1|exact E2|exact P1|exact P2].
Defined.

(** X14 on [int]: emplace, copy-assign, move-assign, reset. *)
Lemma returning_program_keeps_invariant_witness :
  store_ok int_store ∧
  ∃ s', run_calls (ops:=int_ops) int_program int_store = Ret tt s' ∧
        store_ok s'.
Proof.
  split; [exact int_store_ok|]. eexists. split; [vm_compute; reflexivity|].
  apply (returning_program_keeps_invariant (ops:=int_ops) int_program
           int_store _ int_store_ok).
  vm_compute; reflexivity.
Defined.

(** X15 on [Fragile], from a store whose container at 1 does not satisfy
    the invariant: two of the three calls throw, and the container at 2,
    a destination, satisfies the invariant at the end. *)
Lemma value_calls_keep_invariant_witness :
  forallb from_value fragile_value_program = true ∧
  opts fragile_flagged_store !! 2%N = Some (present_optional (-1)%Z) ∧
  invariant (present_optional (-1)%Z) ∧
  ∃ s', run_catching (ops:=fragile_ops) fragile_value_program
          fragile_flagged_store = Some s' ∧
        ∃ o', opts s' !! 2%N = Some o' ∧ invariant o'.
Proof.
  assert (E : opts fragile_flagged_store !! 2%N
              = Some (present_optional (-1)%Z)) by reflexivity.
  split_and!; [reflexivity|exact E|reflexivity|].
  eexists. split; [vm_compute; reflexivity|].
  refine (value_calls_keep_invariant (ops:=fragile_ops)
            fragile_value_program fragile_flagged_store _ 2%N _
            eq_refl _ E eq_refl).
  vm_compute; reflexivity.
Defined.


(** X17 on [Fragile]: [Emplace(3)] on 1, a copy assignment to 1 that
    throws, [Reset] on 2.  In the bytes at 1 the payloads 7 and 3 were
    destroyed and one payload was constructed, and no object is there at
    the end: the balance is minus one. *)
Lemma program_balances_lifetimes_witness :
  no_unflagged_payload fragile_store ∧
  ∃ s', run_catching (ops:=fragile_ops) fragile_copy_program fragile_store
          = Some s' ∧
        no_unflagged_payload s' ∧
        ∃ evs, log s' = log fragile_store ++ evs ∧
               balance 1%N evs = (-1)%Z.
Proof.
  assert (W : no_unflagged_payload fragile_store).
  { apply (bool_decide_unpack _). vm_compute. exact I. }
  split; [exact W|]. eexists. split; [vm_compute; reflexivity|].
  lazymatch goal with
  | |- no_unflagged_payload ?s' ∧ _ =>
      destruct (program_balances_lifetimes (ops:=fragile_ops)
                  fragile_copy_program fragile_store s' W)
        as (W' & evs & L & B); [vm_compute; reflexivity|]
  end.
  split; [exact W'|]. exists evs. split; [exact L|].
  apply (B 1%N (present_optional 7%Z) flagged_without_payload);
    vm_compute; reflexivity.
Defined.

(** X20 on the container at 1 of [fragile_flagged_store], in a build with
    assertions. *)
Lemma calls_on_flag_without_payload_witness :
  opts fragile_flagged_store !! 1%N = Some flagged_without_payload ∧
  HasValue 1%N fragile_flagged_store = Ret true fragile_flagged_store ∧
  value_of (GetValue false 1%N) fragile_flagged_store = Undefined ∧
  Optional_dtor 1%N fragile_flagged_store = Undefined ∧
  Emplace (ops:=fragile_ops) 1%N 5%Z fragile_flagged_store = Undefined ∧
  operator_assign_copy (ops:=fragile_ops) 1%N 3%N fragile_flagged_store
    = Undefined.
Proof.
  assert (E : opts fragile_flagged_store !! 1%N
              = Some flagged_without_payload) by reflexivity.
  destruct (calls_on_flag_without_payload (ops:=fragile_ops) false 1%N
              fragile_flagged_store E)
    as (H & _ & V & _ & D & Em & Ac & _).
  split_and!; [exact E|exact H|exact V|exact D|apply Em|].
  apply Ac. discriminate.
Defined.


(** X18 on the present container at 1. *)
Lemma Emplace_absorbs_Reset_witness :
  opts int_store !! 1%N = Some (present_optional 7%Z) ∧
  (Reset 1%N;; Emplace (ops:=int_ops) 1%N 9%Z) int_store
    = Emplace (ops:=int_ops) 1%N 9%Z int_store.
Proof.
  assert (E : opts int_store !! 1%N = Some (present_optional 7%Z))
    by reflexivity.
  split; [exact E|].
  exact (Emplace_absorbs_Reset (ops:=int_ops) 1%N _ 9%Z int_store
           E eq_refl).
Defined.

(** X19 on vectors: the storage at 4 built from the object at 10 by move;
    the object is left without elements. *)
Lemma Optional_from_rvalue_spec_witness :
  opts vec_raw_store !! 4%N = Some (mkOptional None true) ∧
  target (Object_at 10%N) vec_raw_store = Some [5; 6]%Z ∧
  ∃ s', Optional_from_rvalue (ops:=vec_ops) 4%N (Object_at 10%N)
          vec_raw_store = Ret tt s' ∧
        opts s' !! 4%N = Some (present_optional [5; 6]%Z) ∧
        log s' = [Constructed 4%N] ∧
        target (Object_at 10%N) s' = Some [].
Proof.
  assert (E : opts vec_raw_store !! 4%N = Some (mkOptional None true))
    by reflexivity.
  assert (V : target (Object_at 10%N) vec_raw_store = Some [5; 6]%Z)
    by reflexivity.
  destruct (Optional_from_rvalue_spec (ops:=vec_ops) 4%N _ (Object_at 10%N)
              _ vec_raw_store E eq_refl V)
    as (s' & (Hr & Hthis & Hlog) & Ht).
  split_and!; [exact E|exact V|]. exists s'.
  split_and!; [exact Hr|exact Hthis|exact Hlog|exact Ht].
Defined.
